(** * Ellipses patterns ([ellipses/ellipses.go])

    A shallow embedding of the ellipses package: the range resolver
    [parseEllipsesRange], the span extractor [findPatterns] /
    [FindEllipsesPatterns], and the expansion functions [Pattern.Expand],
    [argExpander] and [ArgPattern.Expand], together with the parts of the Go
    standard library they call ([strings], [strconv], [fmt], [regexp]);
    then the wildcard matcher ([Match], [MatchSimple], [Has],
    [MatchAsPatternPrefix]) and the policy actions that use it
    ([Action.Match], [Action.IsValid], [Action.IsObjectAction]).

    Conventions.
    - A Go [string] is a byte sequence: Rocq's [string] (one [ascii] per byte).
    - A [uint64] is a [Z] in [0, 2^64); operations that can overflow have
      their wrap-around written out ([wrap64]).
    - A Go function returning [(v, err)] returns a pair [(v, option error)].
    - A loop that need not terminate takes fuel and returns [None] when the
      fuel is used up; a run-time panic is [None] as well (only in
      [argExpander], which takes no fuel). *)

From Stdlib Require Import ZArith List String Ascii Bool Lia.
Import ListNotations.

Local Open Scope string_scope.
Local Open Scope Z_scope.

(** ** Package [strings] *)

Module Strings.

(** [strings.CutPrefix]: the rest of [s] after a leading [prefix]. *)
Fixpoint CutPrefix (s prefix : string) : option string :=
  match prefix, s with
  | EmptyString, _ => Some s
  | String p prefix', String c s' =>
      if Ascii.eqb c p then CutPrefix s' prefix' else None
  | String _ _, EmptyString => None
  end.

Definition HasPrefix (s prefix : string) : bool :=
  match CutPrefix s prefix with Some _ => true | None => false end.

Definition TrimPrefix (s prefix : string) : string :=
  match CutPrefix s prefix with Some rest => rest | None => s end.

(** Slices [s[:m]] and [s[n:]]. *)
Definition sliceTo (m : nat) (s : string) : string := substring 0 m s.
Definition sliceFrom (n : nat) (s : string) : string :=
  substring n (String.length s - n) s.

Definition HasSuffix (s suffix : string) : bool :=
  (String.length suffix <=? String.length s)%nat
  && String.eqb (sliceFrom (String.length s - String.length suffix) s) suffix.

Definition TrimSuffix (s suffix : string) : string :=
  if HasSuffix s suffix
  then sliceTo (String.length s - String.length suffix) s
  else s.

(** [strings.Index]: byte offset of the first occurrence; [None] is -1. *)
Fixpoint Index (s substr : string) : option nat :=
  if HasPrefix s substr then Some O
  else match s with
       | EmptyString => None
       | String _ s' => option_map S (Index s' substr)
       end.

Definition Contains (s substr : string) : bool :=
  match Index s substr with Some _ => true | None => false end.

(** [strings.Count] for a non-empty [substr]: the loop
    [i := Index(s, substr); if i == -1 { return n }; n++; s = s[i+len(substr):]].
    Every round drops at least one byte, so [length s] rounds are enough. *)
Fixpoint countLoop (fuel : nat) (s substr : string) : nat :=
  match fuel with
  | O => O
  | S fuel' =>
      match Index s substr with
      | None => O
      | Some i =>
          S (countLoop fuel' (sliceFrom (i + String.length substr) s) substr)
      end
  end.

Definition Count (s substr : string) : nat :=
  countLoop (String.length s) s substr.

(** [strings.genSplit] for a non-empty [sep], [sepSave = 0]; [n] is the
    number of rounds left ([n - 1 - i] in the source). *)
Fixpoint genSplit (n : nat) (s sep : string) : list string :=
  match n with
  | O => [s]
  | S n' =>
      match Index s sep with
      | None => [s]
      | Some m =>
          sliceTo m s :: genSplit n' (sliceFrom (m + String.length sep) s) sep
      end
  end.

Definition Split (s sep : string) : list string :=
  genSplit (Count s sep) s sep.

End Strings.

(** ** Package [strconv] *)

Module Strconv.

Inductive Err := ErrSyntax | ErrRange.

(** [*strconv.NumError] of [ParseUint]: the text that failed and why. *)
Record NumError := mkNumError { Num : string; Why : Err }.

Definition maxUint64 : Z := 2 ^ 64 - 1.
Definition wrap64 (x : Z) : Z := x mod 2 ^ 64.

Definition byteVal (c : ascii) : Z := Z.of_N (N_of_ascii c).

(** [lower(c) = c | ('x' - 'X')] *)
Definition lower (c : Z) : Z := Z.lor c 32.

(** The digit switch of [ParseUint]; [None] is its [default] branch. *)
Definition digitOf (c : ascii) : option Z :=
  let b := byteVal c in
  if (48 <=? b) && (b <=? 57) then Some (b - 48)
  else if (97 <=? lower b) && (lower b <=? 122) then Some (lower b - 97 + 10)
  else None.

(** The loop of [ParseUint] over the bytes of [s], for [bitSize = 64]. *)
Fixpoint parseLoop (base cutoff : Z) (s : string) (n : Z) : Z + Err :=
  match s with
  | EmptyString => inl n
  | String c s' =>
      match digitOf c with
      | None => inr ErrSyntax
      | Some d =>
          if base <=? d then inr ErrSyntax
          else if cutoff <=? n then inr ErrRange
          else
            let n := wrap64 (n * base) in
            let n1 := wrap64 (n + d) in
            if (n1 <? n) || (maxUint64 <? n1) then inr ErrRange
            else parseLoop base cutoff s' n1
      end
  end.

(** [strconv.ParseUint(s, base, 64)] for an explicit [base] in 2..36. *)
Definition ParseUint (s : string) (base : Z) : Z + NumError :=
  match s with
  | EmptyString => inr (mkNumError s ErrSyntax)
  | _ =>
      match parseLoop base (maxUint64 / base + 1) s 0 with
      | inl n => inl n
      | inr e => inr (mkNumError s e)
      end
  end.

End Strconv.

(** ** Package [fmt] *)

Module Fmt.

Definition digits : string := "0123456789abcdef".

Definition digitChar (d : Z) : ascii :=
  match String.get (Z.to_nat d) digits with Some c => c | None => "0"%char end.

(** The digit loop of [fmtInteger]: least significant digit first, written
    right to left.  64 rounds cover every [uint64] in every base. *)
Fixpoint fmtDigits (fuel : nat) (base u : Z) (buf : string) : string :=
  match fuel with
  | O => buf
  | S fuel' =>
      if base <=? u
      then fmtDigits fuel' base (u / base) (String (digitChar (u mod base)) buf)
      else String (digitChar u) buf
  end.

Definition fmtInteger (base u : Z) : string := fmtDigits 64 base u "".

Fixpoint zeros (n : nat) : string :=
  match n with O => "" | S n' => String "0" (zeros n') end.

(** Zero padding of [fmtInteger] when a width has been read: zeros on the
    left up to [width] bytes, and no truncation of a longer number. *)
Definition padZero (width : nat) (s : string) : string :=
  zeros (width - String.length s) ++ s.

(** [Sprintf("%d", u)] and [Sprintf("%x", u)] *)
Definition Sprintf_d (u : Z) : string := fmtInteger 10 u.
Definition Sprintf_x (u : Z) : string := fmtInteger 16 u.

(** [tooLarge] of [print.go]: the bound of [doPrintf] on a width or a
    precision written in the format. *)
Definition tooLarge (x : Z) : bool := (1000000 <? x) || (x <? -1000000).

(** [parsenum]: the decimal number at the head of [s], started from [num].
    The bound is tested before each digit is taken; [None] is the overflow
    return [(0, false, end)], which also moves the cursor of [doPrintf] to the
    end of the format. *)
Fixpoint parsenum (s : string) (num : Z) : option Z :=
  match s with
  | EmptyString => Some num
  | String c s' =>
      let b := Strconv.byteVal c in
      if (48 <=? b) && (b <=? 57) then
        if tooLarge num then None
        else parsenum s' (num * 10 + (b - 48))
      else Some num
  end.

(** The flag loop of [doPrintf], on the one flag the formats of this package
    hold: every leading [0] sets the zero flag, the rest is handed on. *)
Fixpoint flags (s : string) : string :=
  match s with
  | EmptyString => s
  | String c s' => if Ascii.eqb c "0" then flags s' else s
  end.

Definition noVerbString : string := "%!(NOVERB)".
Definition extraString : string := "%!(EXTRA ".

(** What [doPrintf] writes when the width overflows: the cursor is at the end
    of the format, so the verb is missing, and the operand is left over and
    reported with its type and its [%v] form, decimal for a [uint64]. *)
Definition noVerbExtra (u : Z) : string :=
  noVerbString ++ extraString ++ "uint64=" ++ fmtInteger 10 u ++ ")".

(** [Sprintf("%" ++ directive ++ verb, u)] for a [uint64] operand, a
    [directive] of decimal digits and the verb [d] ([base] 10) or [x]
    ([base] 16).  When the flag loop uses up the directive the verb goes
    through the fast path, with no width.  Otherwise [parsenum] reads the
    width: the number is zero-padded to it, or the call writes
    [noVerbExtra] when the width is refused. *)
Definition Sprintf_directive (base : Z) (directive : string) (u : Z) : string :=
  match flags directive with
  | EmptyString => fmtInteger base u
  | String c literal =>
      match parsenum (String c literal) 0 with
      | Some wid => padZero (Z.to_nat wid) (fmtInteger base u)
      | None => noVerbExtra u
      end
  end.

(** [Sprintf(Sprintf("%%0%dd", width), u)] and the same with [x]: the
    inner call builds the format ["%0<width>d"], the outer one applies it. *)
Definition Sprintf_0d (width : nat) (u : Z) : string :=
  Sprintf_directive 10 ("0" ++ Sprintf_d (Z.of_nat width)) u.
Definition Sprintf_0x (width : nat) (u : Z) : string :=
  Sprintf_directive 16 ("0" ++ Sprintf_d (Z.of_nat width)) u.

End Fmt.

(** ** Package [regexp], for the one expression the package compiles:
    three groups, [.] starred, the brace span, [.] starred. *)

Module Regexp.

Definition newline : ascii := "010"%char.

(** [.] without the [s] flag: any byte but a newline. *)
Definition isAny (c : ascii) : bool := negb (Ascii.eqb c newline).

(** The class [[0-9a-z]]. *)
Definition isClass (c : ascii) : bool :=
  let b := Strconv.byteVal c in
  ((48 <=? b) && (b <=? 57)) || ((97 <=? b) && (b <=? 122)).

(** A greedy starred class: the longest run of bytes satisfying [p], and
    what follows it. *)
Fixpoint star (p : ascii -> bool) (s : string) : string * string :=
  match s with
  | EmptyString => (EmptyString, EmptyString)
  | String c s' =>
      if p c then let (run, rest) := star p s' in (String c run, rest)
      else (EmptyString, s)
  end.

(** The second group at the head of [s]: an opening brace, a greedy run of
    the class, three dots, a greedy run of the class, a closing brace.
    Returns the span and the rest.  A shorter run of the class is followed
    by a byte of the class, never by a dot or a brace, so the greedy run
    is the only candidate. *)
Definition matchSpan (s : string) : option (string * string) :=
  match s with
  | String c s1 =>
      if Ascii.eqb c "{" then
        let (a, s2) := star isClass s1 in
        match Strings.CutPrefix s2 "..." with
        | Some s3 =>
            let (b, s4) := star isClass s3 in
            match s4 with
            | String c' s5 =>
                if Ascii.eqb c' "}"
                then Some ("{" ++ a ++ "..." ++ b ++ "}", s5)
                else None
            | EmptyString => None
            end
        | None => None
        end
      else None
  | EmptyString => None
  end.

(** The whole expression anchored at the head of [s]: group 1 is a greedy
    run of [.], group 2 the span, group 3 a greedy run of [.].  The
    preference order is that of a backtracking matcher: group 1 takes one
    more byte whenever the rest still matches. *)
Fixpoint matchAt (s : string) : option (string * string * string) :=
  let here :=
    match matchSpan s with
    | Some (span, rest) => Some (EmptyString, span, fst (star isAny rest))
    | None => None
    end in
  match s with
  | EmptyString => here
  | String c s' =>
      if isAny c then
        match matchAt s' with
        | Some (g1, g2, g3) => Some (String c g1, g2, g3)
        | None => here
        end
      else here
  end.

(** The unanchored search: the leftmost offset at which a match starts. *)
Fixpoint search (s : string) : option (string * string * string) :=
  match matchAt s with
  | Some m => Some m
  | None =>
      match s with
      | EmptyString => None
      | String _ s' => search s'
      end
  end.

(** A compiled expression, by the two methods the package calls. *)
Record Regexp := mkRegexp {
  FindStringSubmatch : string -> list string;
  MatchString : string -> bool
}.

Definition regexpEllipses : Regexp :=
  {| FindStringSubmatch := fun s =>
       match search s with
       | Some (g1, g2, g3) => [g1 ++ g2 ++ g3; g1; g2; g3]
       | None => []
       end;
     MatchString := fun s =>
       match search s with Some _ => true | None => false end |}.

End Regexp.

(** ** Package [ellipses] *)

Module Ellipses.

Import Strings Strconv Fmt Regexp.

Definition openBraces : string := "{".
Definition closeBraces : string := "}".
Definition ellipses : string := "...".

(** The error values the package can return. *)
Inductive error :=
| errInvalidArgument                      (* errors.New("invalid argument") *)
| errNum (e : NumError)                   (* the error of strconv.ParseUint *)
| errRangeOrder (start end_ : Z)          (* fmt.Errorf("incorrect range start %d ...") *)
| errFormat                               (* the package variable errFormat *)
| errInvalidEllipsesFormat (arg : string) (* ErrInvalidEllipsesFormatFn(arg) *).

(** [err.Error()] *)
Definition Error (e : error) : string :=
  match e with
  | errInvalidArgument => "invalid argument"
  | errNum e =>
      "strconv.ParseUint: parsing " ++ String "034" (Num e) ++ String "034" ": "
      ++ match Why e with
         | ErrSyntax => "invalid syntax"
         | ErrRange => "value out of range"
         end
  | errRangeOrder start end_ =>
      "incorrect range start " ++ Sprintf_d start
      ++ " cannot be bigger than end " ++ Sprintf_d end_
  | errFormat => "format error"
  | errInvalidEllipsesFormat arg =>
      "invalid ellipsis format in (" ++ arg
      ++ "), ellipsis range must be provided in format {N...M} where N and M are positive integers, M must be greater than N,  with an allowed minimum range of 4"
  end.

(** [err == errFormat] *)
Definition isErrFormat (e : error) : bool :=
  match e with errFormat => true | _ => false end.

(** The locals of [parseEllipsesRange] when it reaches its [for] loop:
    [lo] and [hi] are [ellipsesRange[0]] and [ellipsesRange[1]]. *)
Record bounds := mkBounds {
  lo : string;
  hi : string;
  start : Z;
  end_ : Z;
  hexadecimal : bool
}.

(** [parseEllipsesRange] up to the loop: the checks and the two
    conversions.  [inr] is a [return nil, err]. *)
Definition rangeBounds (pattern : string) : bounds + error :=
  if negb (Contains pattern openBraces) then inr errInvalidArgument else
  if negb (Contains pattern closeBraces) then inr errInvalidArgument else
  let pattern := TrimPrefix pattern openBraces in
  let pattern := TrimSuffix pattern closeBraces in
  let ellipsesRange := Split pattern ellipses in
  if negb (Nat.eqb (List.length ellipsesRange) 2) then inr errInvalidArgument else
  let r0 := nth 0 ellipsesRange "" in
  let r1 := nth 1 ellipsesRange "" in
  let hexadecimal := false in
  match
    match ParseUint r0 10 with
    | inl start => inl (start, hexadecimal)
    | inr _ =>
        (* Look for hexadecimal conversions if any. *)
        match ParseUint r0 16 with
        | inl start => inl (start, true)
        | inr err => inr err
        end
    end
  with
  | inr err => inr (errNum err)
  | inl (start, hexadecimal) =>
      match
        match ParseUint r1 10 with
        | inl end_ => inl (end_, hexadecimal)
        | inr _ =>
            (* Look for hexadecimal conversions if any. *)
            match ParseUint r1 16 with
            | inl end_ => inl (end_, true)
            | inr err => inr err
            end
        end
      with
      | inr err => inr (errNum err)
      | inl (end_, hexadecimal) =>
          if end_ <? start then inr (errRangeOrder start end_)
          else inl (mkBounds r0 r1 start end_ hexadecimal)
      end
  end.

(** Whether the loop pads: the condition of its outer [if]. *)
Definition padded (b : bounds) : bool :=
  HasPrefix (lo b) "0" && (1 <? String.length (lo b))%nat || HasPrefix (hi b) "0".

(** The label the loop body appends for [i]. *)
Definition label (b : bounds) (i : Z) : string :=
  if padded b then
    if hexadecimal b then Sprintf_0x (String.length (hi b)) i
    else Sprintf_0d (String.length (hi b)) i
  else
    if hexadecimal b then Sprintf_x i
    else Sprintf_d i.

(** [for i := start; i <= end; i++ { seq = append(seq, ...) }] on a
    [uint64] counter: [i++] wraps around.  [None]: out of fuel. *)
Fixpoint rangeLoop (fuel : nat) (b : bounds) (i : Z) (seq : list string)
  : option (list string) :=
  match fuel with
  | O => None
  | S fuel' =>
      if i <=? end_ b
      then rangeLoop fuel' b (wrap64 (i + 1)) (seq ++ [label b i])%list
      else Some seq
  end.

Definition parseEllipsesRange (fuel : nat) (pattern : string)
  : option (list string * option error) :=
  match rangeBounds pattern with
  | inr err => Some ([], Some err)
  | inl b =>
      match rangeLoop fuel b (start b) [] with
      | Some seq => Some (seq, None)
      | None => None
      end
  end.

Record Pattern := mkPattern {
  Prefix : string;
  Suffix : string;
  Seq : list string
}.

Definition ArgPattern := list Pattern.

Definition isEmpty (s : string) : bool :=
  match s with EmptyString => true | _ => false end.

(** [Pattern.Expand]: the four cases of its [switch], in order. *)
Definition Pattern_Expand (p : Pattern) : list string :=
  map (fun seq_i =>
         if negb (isEmpty (Prefix p)) && isEmpty (Suffix p) then Prefix p ++ seq_i
         else if negb (isEmpty (Suffix p)) && isEmpty (Prefix p) then seq_i ++ Suffix p
         else if isEmpty (Suffix p) && isEmpty (Prefix p) then seq_i
         else Prefix p ++ seq_i ++ Suffix p)
      (Seq p).

(** [argExpander].  [labels[0]] on an empty slice panics: [None].  The
    recursive call sits inside the loop over [labels[0]], as in the source;
    every [rs] is built anew, so [append(rlbls, lbl)] shares no storage
    between rounds. *)
Fixpoint argExpander (labels : list (list string)) : option (list (list string)) :=
  match labels with
  | [] => None
  | [l0] => Some (map (fun v => [v]) l0)
  | l0 :: rest =>
      fold_left
        (fun out lbl =>
           match out with
           | None => None
           | Some out =>
               match argExpander rest with
               | None => None
               | Some rs => Some (out ++ map (fun rlbls => rlbls ++ [lbl]) rs)%list
               end
           end)
        l0 (Some [])
  end.

(** [ArgPattern.Expand] *)
Definition ArgPattern_Expand (a : ArgPattern) : option (list (list string)) :=
  argExpander (map Pattern_Expand a).

(** [HasEllipses] *)
Definition HasEllipses (args : list string) : bool :=
  fold_left
    (fun ok arg =>
       ok && ((0 <? Count arg ellipses)%nat
              || ((0 <? Count arg openBraces)%nat && (0 <? Count arg closeBraces)%nat)))
    args true.

Definition ErrInvalidEllipsesFormatFn (arg : string) : error :=
  errInvalidEllipsesFormat arg.

Definition hasBraces (s : string) : bool :=
  (0 <? Count s openBraces)%nat || (0 <? Count s closeBraces)%nat.

(** The last loop of [findPatterns]: braces left in a prefix or suffix. *)
Definition leftoverBraces (patterns : list Pattern) : bool :=
  existsb (fun pattern => hasBraces (Prefix pattern) || hasBraces (Suffix pattern))
          patterns.

Section findPatterns.

Variable arg : string.
Variable re : Regexp.
(** [None] when the parser does not return. *)
Variable patternParser : string -> option (list string * option error).

Definition part (i : nat) (parts : list string) : string := nth i parts "".

(** After the [for patternFound] loop. *)
Definition finish (parts : list string) (patterns : list Pattern)
  : option (ArgPattern * option error) :=
  match
    if Nat.ltb 0 (List.length parts) then
      match patternParser (part 1 parts) with
      | None => None
      | Some (_, Some err) => Some (inr (patterns, err))
      | Some (seq, None) =>
          Some (inl (patterns ++ [mkPattern (part 0 parts) (part 2 parts) seq])%list)
      end
    else Some (inl patterns)
  with
  | None => None
  | Some (inr (patterns, err)) => Some (patterns, Some err)
  | Some (inl patterns) =>
      if leftoverBraces patterns
      then Some ([], Some (ErrInvalidEllipsesFormatFn arg))
      else Some (patterns, None)
  end.

(** [for patternFound { ... }]: one round per unit of fuel; [parts] is
    already [parts[1:]]. *)
Fixpoint peel (fuel : nat) (parts : list string) (patterns : list Pattern)
  : option (ArgPattern * option error) :=
  match fuel with
  | O => None
  | S fuel' =>
      if MatchString re (part 0 parts) then
        match patternParser (part 1 parts) with
        | None => None
        | Some (_, Some err) => Some (patterns, Some err)
        | Some (seq, None) =>
            let patterns := (patterns ++ [mkPattern "" (part 2 parts) seq])%list in
            let parts' := FindStringSubmatch re (part 0 parts) in
            if Nat.ltb 0 (List.length parts')
            then peel fuel' (tl parts') patterns
            else finish parts' patterns
        end
      else finish parts patterns
  end.

(** [findPatterns].  Every round of the loop continues on a shorter
    string, so [length arg] rounds and one more test are enough. *)
Definition findPatterns : option (ArgPattern * option error) :=
  let parts := FindStringSubmatch re arg in
  if Nat.eqb (List.length parts) 0 then Some ([], Some errFormat)
  else peel (S (String.length arg)) (tl parts) [].

End findPatterns.

(** [FindEllipsesPatterns]; [fuel] bounds the loop of every call of
    [parseEllipsesRange]. *)
Definition FindEllipsesPatterns (fuel : nat) (arg : string)
  : option (ArgPattern * option error) :=
  match findPatterns arg regexpEllipses (parseEllipsesRange fuel) with
  | None => None
  | Some (v, err) =>
      let err :=
        match err with
        | Some e => if isErrFormat e then Some (ErrInvalidEllipsesFormatFn arg) else Some e
        | None => None
        end in
      Some (v, err)
  end.

End Ellipses.

Import Strings Strconv Fmt Regexp Ellipses.

(** ** Package [wildcard] *)

Module Wildcard.

Import Strings.

Definition isEmpty (s : string) : bool :=
  match s with EmptyString => true | _ => false end.

(** [deepMatchRune]: the loop drops one byte of [pattern] per round, and one
    byte of [str] unless it returns; the two calls of the star case are the
    call on the rest of the pattern and [forward], the call on [str[1:]] with
    the same pattern. *)
Fixpoint deepMatchRune (str pattern : string) (simple : bool) {struct pattern}
  : bool :=
  match pattern with
  | EmptyString => isEmpty str && isEmpty pattern
  | String p pattern' =>
      if Ascii.eqb p "?" then
        match str with
        | EmptyString => simple
        | String _ str' => deepMatchRune str' pattern' simple
        end
      else if Ascii.eqb p "*" then
        (fix forward (str : string) : bool :=
           isEmpty pattern'
           || deepMatchRune str pattern' simple
           || match str with
              | EmptyString => false
              | String _ str' => forward str'
              end) str
      else
        match str with
        | EmptyString => false
        | String c str' =>
            if Ascii.eqb c p then deepMatchRune str' pattern' simple else false
        end
  end.

(** [MatchSimple] *)
Definition MatchSimple (pattern name : string) : bool :=
  if String.eqb pattern "" then String.eqb name pattern
  else if String.eqb pattern "*" then true
  else deepMatchRune name pattern true.

(** [Match] *)
Definition Match (pattern name : string) : bool :=
  if String.eqb pattern "" then String.eqb name pattern
  else if String.eqb pattern "*" then true
  else deepMatchRune name pattern false.

(** [Has]; [cmp.Or] on two booleans is their disjunction. *)
Definition Has (pattern : string) : bool :=
  Contains pattern "*" || Contains pattern "?".

(** The loop of [MatchAsPatternPrefix] from index [i]; it runs at most
    [len(text)] rounds, so the fuel of the caller is never used up. *)
Fixpoint prefixLoop (fuel i : nat) (pattern text : string) : bool :=
  match fuel with
  | O => false
  | S fuel' =>
      if (i <? String.length text)%nat && (i <? String.length pattern)%nat then
        match String.get i pattern, String.get i text with
        | Some p, Some t =>
            if Ascii.eqb p "*" then true
            else if Ascii.eqb p "?" then prefixLoop fuel' (S i) pattern text
            else if negb (Ascii.eqb p t) then false
            else prefixLoop fuel' (S i) pattern text
        | _, _ => false
        end
      else (String.length text <=? String.length pattern)%nat
  end.

(** [MatchAsPatternPrefix] *)
Definition MatchAsPatternPrefix (pattern text : string) : bool :=
  prefixLoop (S (String.length text)) 0 pattern text.

End Wildcard.

(** ** Package [policy]: the actions *)

Module Policy.

(** [type Action string] *)
Definition Action := string.

Definition AbortMultipartUploadAction : Action := "s3:AbortMultipartUpload".
Definition CreateBucketAction : Action := "s3:CreateBucket".
Definition DeleteBucketAction : Action := "s3:DeleteBucket".
Definition ForceDeleteBucketAction : Action := "s3:ForceDeleteBucket".
Definition DeleteBucketPolicyAction : Action := "s3:DeleteBucketPolicy".
Definition DeleteBucketCorsAction : Action := "s3:DeleteBucketCors".
Definition DeleteObjectAction : Action := "s3:DeleteObject".
Definition GetBucketLocationAction : Action := "s3:GetBucketLocation".
Definition GetBucketNotificationAction : Action := "s3:GetBucketNotification".
Definition GetBucketPolicyAction : Action := "s3:GetBucketPolicy".
Definition GetBucketCorsAction : Action := "s3:GetBucketCors".
Definition GetObjectAction : Action := "s3:GetObject".
Definition GetObjectAttributesAction : Action := "s3:GetObjectAttributes".
Definition HeadBucketAction : Action := "s3:HeadBucket".
Definition ListAllMyBucketsAction : Action := "s3:ListAllMyBuckets".
Definition ListBucketAction : Action := "s3:ListBucket".
Definition GetBucketPolicyStatusAction : Action := "s3:GetBucketPolicyStatus".
Definition ListBucketVersionsAction : Action := "s3:ListBucketVersions".
Definition ListBucketMultipartUploadsAction : Action := "s3:ListBucketMultipartUploads".
Definition ListenNotificationAction : Action := "s3:ListenNotification".
Definition ListenBucketNotificationAction : Action := "s3:ListenBucketNotification".
Definition ListMultipartUploadPartsAction : Action := "s3:ListMultipartUploadParts".
Definition PutBucketLifecycleAction : Action := "s3:PutLifecycleConfiguration".
Definition GetBucketLifecycleAction : Action := "s3:GetLifecycleConfiguration".
Definition PutBucketNotificationAction : Action := "s3:PutBucketNotification".
Definition PutBucketPolicyAction : Action := "s3:PutBucketPolicy".
Definition PutBucketCorsAction : Action := "s3:PutBucketCors".
Definition PutObjectAction : Action := "s3:PutObject".
Definition DeleteObjectVersionAction : Action := "s3:DeleteObjectVersion".
Definition DeleteObjectVersionTaggingAction : Action := "s3:DeleteObjectVersionTagging".
Definition GetObjectVersionAction : Action := "s3:GetObjectVersion".
Definition GetObjectVersionAttributesAction : Action := "s3:GetObjectVersionAttributes".
Definition GetObjectVersionTaggingAction : Action := "s3:GetObjectVersionTagging".
Definition PutObjectVersionTaggingAction : Action := "s3:PutObjectVersionTagging".
Definition BypassGovernanceRetentionAction : Action := "s3:BypassGovernanceRetention".
Definition PutObjectRetentionAction : Action := "s3:PutObjectRetention".
Definition GetObjectRetentionAction : Action := "s3:GetObjectRetention".
Definition GetObjectLegalHoldAction : Action := "s3:GetObjectLegalHold".
Definition PutObjectLegalHoldAction : Action := "s3:PutObjectLegalHold".
Definition GetBucketObjectLockConfigurationAction : Action := "s3:GetBucketObjectLockConfiguration".
Definition PutBucketObjectLockConfigurationAction : Action := "s3:PutBucketObjectLockConfiguration".
Definition GetBucketTaggingAction : Action := "s3:GetBucketTagging".
Definition PutBucketTaggingAction : Action := "s3:PutBucketTagging".
Definition GetObjectTaggingAction : Action := "s3:GetObjectTagging".
Definition PutObjectTaggingAction : Action := "s3:PutObjectTagging".
Definition DeleteObjectTaggingAction : Action := "s3:DeleteObjectTagging".
Definition PutBucketEncryptionAction : Action := "s3:PutEncryptionConfiguration".
Definition GetBucketEncryptionAction : Action := "s3:GetEncryptionConfiguration".
Definition PutBucketVersioningAction : Action := "s3:PutBucketVersioning".
Definition GetBucketVersioningAction : Action := "s3:GetBucketVersioning".
Definition GetReplicationConfigurationAction : Action := "s3:GetReplicationConfiguration".
Definition PutReplicationConfigurationAction : Action := "s3:PutReplicationConfiguration".
Definition ReplicateObjectAction : Action := "s3:ReplicateObject".
Definition ReplicateDeleteAction : Action := "s3:ReplicateDelete".
Definition ReplicateTagsAction : Action := "s3:ReplicateTags".
Definition GetObjectVersionForReplicationAction : Action := "s3:GetObjectVersionForReplication".
Definition RestoreObjectAction : Action := "s3:RestoreObject".
Definition ResetBucketReplicationStateAction : Action := "s3:ResetBucketReplicationState".
Definition PutObjectFanOutAction : Action := "s3:PutObjectFanOut".
Definition CreateSessionAction : Action := "s3express:CreateSession".
Definition AllActions : Action := "s3:*".

(** The keys of [supportedActions].  The source ranges over a map; the two functions that do so
    return whether some key matches, which no order changes. *)
Definition supportedActions : list Action :=
  [ AbortMultipartUploadAction; CreateBucketAction; DeleteBucketAction;
    ForceDeleteBucketAction; DeleteBucketPolicyAction;
    DeleteBucketCorsAction; DeleteObjectAction; GetBucketLocationAction;
    GetBucketNotificationAction; GetBucketPolicyAction; GetBucketCorsAction;
    GetObjectAction; HeadBucketAction; ListAllMyBucketsAction;
    ListBucketAction; GetBucketPolicyStatusAction; ListBucketVersionsAction;
    ListBucketMultipartUploadsAction; ListenNotificationAction;
    ListenBucketNotificationAction; ListMultipartUploadPartsAction;
    PutBucketLifecycleAction; GetBucketLifecycleAction;
    PutBucketNotificationAction; PutBucketPolicyAction; PutBucketCorsAction;
    PutObjectAction; BypassGovernanceRetentionAction;
    PutObjectRetentionAction; GetObjectRetentionAction;
    GetObjectLegalHoldAction; PutObjectLegalHoldAction;
    GetBucketObjectLockConfigurationAction;
    PutBucketObjectLockConfigurationAction; GetBucketTaggingAction;
    PutBucketTaggingAction; GetObjectVersionAction;
    GetObjectAttributesAction; GetObjectVersionAttributesAction;
    GetObjectVersionTaggingAction; DeleteObjectVersionAction;
    DeleteObjectVersionTaggingAction; PutObjectVersionTaggingAction;
    GetObjectTaggingAction; PutObjectTaggingAction;
    DeleteObjectTaggingAction; PutBucketEncryptionAction;
    GetBucketEncryptionAction; PutBucketVersioningAction;
    GetBucketVersioningAction; GetReplicationConfigurationAction;
    PutReplicationConfigurationAction; ReplicateObjectAction;
    ReplicateDeleteAction; ReplicateTagsAction;
    GetObjectVersionForReplicationAction; RestoreObjectAction;
    ResetBucketReplicationStateAction; PutObjectFanOutAction;
    CreateSessionAction; AllActions ].

(** The keys of [supportedObjectActions].  The source ranges over a map; the two functions that do so
    return whether some key matches, which no order changes. *)
Definition supportedObjectActions : list Action :=
  [ AllActions; AbortMultipartUploadAction; DeleteObjectAction;
    GetObjectAction; ListMultipartUploadPartsAction; PutObjectAction;
    BypassGovernanceRetentionAction; PutObjectRetentionAction;
    GetObjectRetentionAction; PutObjectLegalHoldAction;
    GetObjectLegalHoldAction; GetObjectTaggingAction; PutObjectTaggingAction;
    DeleteObjectTaggingAction; GetObjectVersionAction;
    GetObjectVersionTaggingAction; DeleteObjectVersionAction;
    DeleteObjectVersionTaggingAction; PutObjectVersionTaggingAction;
    ReplicateObjectAction; ReplicateDeleteAction; ReplicateTagsAction;
    GetObjectVersionForReplicationAction; RestoreObjectAction;
    ResetBucketReplicationStateAction; PutObjectFanOutAction;
    GetObjectAttributesAction; GetObjectVersionAttributesAction ].

(** [Action.Match]: the action is the pattern. *)
Definition Action_Match (action a : Action) : bool := Wildcard.Match action a.

(** [Action.IsObjectAction] *)
Definition Action_IsObjectAction (action : Action) : bool :=
  existsb (fun supAction => Action_Match action supAction) supportedObjectActions.

(** [Action.IsValid] *)
Definition Action_IsValid (action : Action) : bool :=
  existsb (fun supAction => Action_Match action supAction) supportedActions.

End Policy.

(** ** Vocabulary of the statements *)

(** Every byte of [s] satisfies [p]. *)
Fixpoint allBytes (p : ascii -> bool) (s : string) : bool :=
  match s with
  | EmptyString => true
  | String c s' => p c && allBytes p s'
  end.

Definition notByte (x : ascii) (c : ascii) : bool := negb (Ascii.eqb c x).

(** Literal text around spans: no brace and no newline. *)
Definition isPlain (c : ascii) : bool :=
  notByte "{" c && notByte "}" c && isAny c.

(** The range token with boundaries [l] and [r]. *)
Definition token (l r : string) : string := "{" ++ l ++ "..." ++ r ++ "}".

(** [i, i + 1, ..., i + n - 1] *)
Fixpoint upto (i : Z) (n : nat) : list Z :=
  match n with
  | O => []
  | S n' => i :: upto (i + 1) n'
  end.

(** The integers of the closed interval [[s, e]], ascending. *)
Definition interval (s e : Z) : list Z := upto s (Z.to_nat (e - s + 1)).

Definition parses (text : string) (base : Z) : bool :=
  match ParseUint text base with inl _ => true | inr _ => false end.

(** The value of one boundary as the resolver takes it: the decimal value
    when the text is decimal, else the hexadecimal value, with a flag that
    tells which; the error of the hexadecimal conversion when both fail. *)
Definition boundary (text : string) : (Z * bool) + NumError :=
  match ParseUint text 10 with
  | inl v => inl (v, false)
  | inr _ =>
      match ParseUint text 16 with
      | inl v => inl (v, true)
      | inr e => inr e
      end
  end.

(** A byte [ParseUint] reads as a digit in some base. *)
Definition isDigitByte (c : ascii) : bool :=
  match digitOf c with Some _ => true | None => false end.


(** The digits of [i] in the base of the range. *)
Definition digitsOf (hex : bool) (i : Z) : string :=
  fmtInteger (if hex then 16 else 10) i.

(** A span of the input with the literal text after it: the token
    [{spanLo...spanHi}] followed by [spanAfter]. *)
Record span := mkSpan { spanLo : string; spanHi : string; spanAfter : string }.

Definition spanToken (sp : span) : string := token (spanLo sp) (spanHi sp).

(** The boundaries are runs of the class [[0-9a-z]], the text after the span
    has no brace and no newline. *)
Definition wellFormed (sp : span) : bool :=
  allBytes isClass (spanLo sp) && allBytes isClass (spanHi sp)
  && allBytes isPlain (spanAfter sp).

(** The text of consecutive spans, left to right. *)
Fixpoint render (spans : list span) : string :=
  match spans with
  | [] => ""
  | sp :: rest => spanToken sp ++ spanAfter sp ++ render rest
  end.

Definition headFails (p : ascii -> bool) (s : string) : bool :=
  match s with
  | EmptyString => true
  | String c _ => negb (p c)
  end.

(** The pattern of a span that is not the leftmost one: no prefix. *)
Definition innerPattern (it : span * list string) : Pattern :=
  mkPattern "" (spanAfter (fst it)) (snd it).

(** A well-formed span whose token the parser resolves to the given labels. *)
Definition resolvesWith (parser : string -> option (list string * option error))
  (it : span * list string) : Prop :=
  wellFormed (fst it) = true /\ parser (spanToken (fst it)) = Some (snd it, None).





(** What a wildcard pattern denotes.  [?] stands for one byte, [*] for any
    run of bytes, every other byte for itself; with [simple], a [?] reached
    when the name is used up accepts. *)
Inductive glob (simple : bool) : string -> string -> Prop :=
| glob_end : glob simple "" ""
| glob_one (p s : string) (c : ascii) :
    glob simple p s -> glob simple (String "?" p) (String c s)
| glob_short (p : string) :
    simple = true -> glob simple (String "?" p) ""
| glob_star (p s1 s2 : string) :
    glob simple p s2 -> glob simple (String "*" p) (s1 ++ s2)
| glob_byte (c : ascii) (p s : string) :
    c <> "?"%char -> c <> "*"%char ->
    glob simple p s -> glob simple (String c p) (String c s).

Definition isPrefixOf (a b : string) : Prop := exists rest, b = a ++ rest.

(** The loop of [MatchAsPatternPrefix] on what is left of both strings. *)
Fixpoint prefixWalk (pattern text : string) : bool :=
  match pattern, text with
  | String p pattern', String t text' =>
      if Ascii.eqb p "*" then true
      else if Ascii.eqb p "?" || Ascii.eqb p t then prefixWalk pattern' text'
      else false
  | _, _ => (String.length text <=? String.length pattern)%nat
  end.

(** A name the pattern matches: the pattern without its stars. *)
Fixpoint starless (pattern : string) : string :=
  match pattern with
  | EmptyString => EmptyString
  | String c p => if Ascii.eqb c "*" then starless p else String c (starless p)
  end.

(** One element of each list, in the order of the lists. *)
Definition picks (t : list string) (lists : list (list string)) : Prop :=
  Forall2 (fun x l => In x l) t lists.

Definition product (ns : list nat) : nat := fold_right Nat.mul 1%nat ns.

(** The tuples of [argExpander]: for each label of the first list, in
    order, every tuple of the other lists with the label put last. *)
Fixpoint tuples (labels : list (list string)) : list (list string) :=
  match labels with
  | [] => [[]]
  | l0 :: rest =>
      flat_map (fun lbl => map (fun r => (r ++ [lbl])%list) (tuples rest)) l0
  end.

(** Each span replaced by a label and followed by its text. *)
Fixpoint fillSpans (spans : list span) (choice : list string) : list string :=
  match spans, choice with
  | sp :: spans', l :: choice' => (l ++ spanAfter sp) :: fillSpans spans' choice'
  | _, _ => []
  end.

Definition withPrefix (pre : string) (t : list string) : list string :=
  match t with
  | x :: xs => (pre ++ x) :: xs
  | [] => []
  end.

(** ** The embedding on small inputs *)

Example parseUint_decimal : ParseUint "64" 10 = inl 64.
Proof. reflexivity. Qed.

Example parseUint_hexadecimal : ParseUint "0F" 16 = inl 15.
Proof. reflexivity. Qed.

Example parseUint_largest :
  ParseUint "18446744073709551615" 10 = inl maxUint64
  /\ ParseUint "18446744073709551616" 10
     = inr (mkNumError "18446744073709551616" ErrRange).
Proof. split; reflexivity. Qed.

Example split_two_separators : Split "1...2...3" "..." = ["1"; "2"; "3"].
Proof. reflexivity. Qed.

Example split_four_dots : Split "1....2" "..." = ["1"; ".2"].
Proof. reflexivity. Qed.

Example submatch_rightmost_span :
  FindStringSubmatch regexpEllipses "a{1...2}b{3...4}c" =
  ["a{1...2}b{3...4}c"; "a{1...2}b"; "{3...4}"; "c"].
Proof. reflexivity. Qed.

Example submatch_first_line_with_span :
  FindStringSubmatch regexpEllipses
    ("x" ++ String newline "y{1...2}z" ++ String newline "w") =
  ["y{1...2}z"; "y"; "{1...2}"; "z"].
Proof. reflexivity. Qed.

Example range_33_36 :
  parseEllipsesRange 5 "{33...36}" = Some (["33"; "34"; "35"; "36"], None).
Proof. reflexivity. Qed.

Example range_hexadecimal_padded :
  parseEllipsesRange 5 "{0d...0f}" = Some (["0d"; "0e"; "0f"], None).
Proof. reflexivity. Qed.

Example sprintf_zero_padded :
  Sprintf_0d 3 7 = "007" /\ Sprintf_0x 4 255 = "00ff"
  /\ Sprintf_0d 2 1234 = "1234" /\ Sprintf_0d 0 5 = "5"
  /\ Sprintf_0x 10 0 = "0000000000".
Proof. repeat split; reflexivity. Qed.

Example parsenum_width_limit :
  parsenum "10000009" 0 = Some 10000009 /\ parsenum "10000010" 0 = None
  /\ parsenum "1000000" 0 = Some 1000000 /\ parsenum "99999999" 0 = None.
Proof. repeat split; reflexivity. Qed.

Example range_order_message :
  parseEllipsesRange 0 "{4...1}" = Some ([], Some (errRangeOrder 4 1))
  /\ Error (errRangeOrder 4 1)
     = "incorrect range start 4 cannot be bigger than end 1".
Proof. split; reflexivity. Qed.

Example expand_with_prefix :
  Pattern_Expand (mkPattern "data" "" ["1"; "2"; "3"]) = ["data1"; "data2"; "data3"].
Proof. reflexivity. Qed.

Example hasEllipses_all_arguments :
  HasEllipses ["a{1...4}b"] = true /\ HasEllipses ["abc"] = false
  /\ HasEllipses ["a{1...4}b"; "plain"] = false.
Proof. repeat split; reflexivity. Qed.

(** ** Strings *)

Lemma sapp_assoc (a b c : string) : (a ++ b) ++ c = a ++ (b ++ c).
Proof. induction a as [|x a IH]; simpl; [reflexivity | now rewrite IH]. Qed.

Lemma sapp_nil_r (a : string) : a ++ "" = a.
Proof. induction a as [|x a IH]; simpl; [reflexivity | now rewrite IH]. Qed.

Lemma slength_app (a b : string) :
  String.length (a ++ b) = (String.length a + String.length b)%nat.
Proof. induction a as [|x a IH]; simpl; [reflexivity | now rewrite IH]. Qed.

Lemma substring_all (s : string) : substring 0 (String.length s) s = s.
Proof. induction s as [|x s IH]; simpl; [reflexivity | now rewrite IH]. Qed.

Lemma sliceTo_app (a b : string) : sliceTo (String.length a) (a ++ b) = a.
Proof.
  unfold sliceTo. induction a as [|x a IH]; simpl.
  - destruct b; reflexivity.
  - now rewrite IH.
Qed.

Lemma sliceFrom_app (a b : string) : sliceFrom (String.length a) (a ++ b) = b.
Proof.
  unfold sliceFrom. induction a as [|x a IH]; simpl.
  - rewrite Nat.sub_0_r. apply substring_all.
  - exact IH.
Qed.

Lemma CutPrefix_app (p s : string) : CutPrefix (p ++ s) p = Some s.
Proof.
  induction p as [|x p IH]; simpl.
  - destruct s; reflexivity.
  - now rewrite Ascii.eqb_refl.
Qed.

Lemma TrimPrefix_app (p s : string) : TrimPrefix (p ++ s) p = s.
Proof. unfold TrimPrefix. now rewrite CutPrefix_app. Qed.

Lemma TrimSuffix_app (s x : string) : TrimSuffix (s ++ x) x = s.
Proof.
  unfold TrimSuffix, HasSuffix. rewrite slength_app.
  replace (String.length s + String.length x - String.length x)%nat
    with (String.length s) by lia.
  rewrite sliceFrom_app, sliceTo_app, String.eqb_refl.
  replace (String.length x <=? String.length s + String.length x)%nat with true
    by (symmetry; apply Nat.leb_le; lia).
  reflexivity.
Qed.

Lemma allBytes_app (p : ascii -> bool) (a b : string) :
  allBytes p (a ++ b) = allBytes p a && allBytes p b.
Proof.
  induction a as [|x a IH]; simpl; [reflexivity|].
  now rewrite IH, andb_assoc.
Qed.

Lemma allBytes_weaken (p q : ascii -> bool) (s : string) :
  (forall c, p c = true -> q c = true) ->
  allBytes p s = true -> allBytes q s = true.
Proof.
  intros Hpq. induction s as [|x s IH]; simpl; [reflexivity|].
  intros H. apply andb_true_iff in H as [Hx Hs].
  now rewrite (Hpq _ Hx), IH.
Qed.

(** A text without the first byte of [substr] does not contain [substr]. *)
Lemma Index_absent (h : ascii) (t s : string) :
  allBytes (notByte h) s = true -> Index s (String h t) = None.
Proof.
  induction s as [|x s IH]; simpl; [reflexivity|].
  intros H. apply andb_true_iff in H as [Hx Hs].
  unfold HasPrefix. simpl. unfold notByte in Hx.
  destruct (Ascii.eqb x h); [discriminate|]. simpl.
  now rewrite IH.
Qed.

Lemma Index_first (h : ascii) (t l r : string) :
  allBytes (notByte h) l = true ->
  Index (l ++ String h t ++ r) (String h t) = Some (String.length l).
Proof.
  induction l as [|x l IH]; intros H.
  - change ("" ++ String h t ++ r) with (String h t ++ r).
    destruct (String h t ++ r) eqn:E; [discriminate E|].
    simpl. unfold HasPrefix. rewrite <- E, CutPrefix_app. reflexivity.
  - simpl in H. apply andb_true_iff in H as [Hx Hl].
    specialize (IH Hl). simpl in IH |- *.
    unfold HasPrefix. simpl. unfold notByte in Hx.
    destruct (Ascii.eqb x h); [discriminate|]. simpl.
    now rewrite IH.
Qed.

Lemma Index_present (sub a b : string) : Index (a ++ sub ++ b) sub <> None.
Proof.
  induction a as [|x a IH].
  - change ("" ++ sub ++ b) with (sub ++ b).
    assert (H : HasPrefix (sub ++ b) sub = true)
      by (unfold HasPrefix; now rewrite CutPrefix_app).
    destruct (sub ++ b); simpl; rewrite H; discriminate.
  - simpl. destruct (HasPrefix _ _); [discriminate|].
    destruct (Index (a ++ sub ++ b) sub); [discriminate | contradiction].
Qed.

Lemma Contains_present (sub a b : string) : Contains (a ++ sub ++ b) sub = true.
Proof.
  unfold Contains. pose proof (Index_present sub a b) as H.
  destruct (Index _ _); [reflexivity | contradiction].
Qed.



Lemma Count_one (h : ascii) (t l r : string) :
  allBytes (notByte h) l = true -> allBytes (notByte h) r = true ->
  Count (l ++ String h t ++ r) (String h t) = 1%nat.
Proof.
  intros Hl Hr. unfold Count.
  destruct (String.length (l ++ String h t ++ r)) eqn:E.
  - rewrite slength_app in E. simpl in E. lia.
  - cbn [countLoop]. rewrite (Index_first h t l r Hl).
    rewrite <- slength_app, <- sapp_assoc, sliceFrom_app.
    destruct n; simpl; [reflexivity|]. now rewrite (Index_absent h t r Hr).
Qed.

(** A text with one separator splits into what is left and right of it. *)
Lemma Split_one (h : ascii) (t l r : string) :
  allBytes (notByte h) l = true -> allBytes (notByte h) r = true ->
  Split (l ++ String h t ++ r) (String h t) = [l; r].
Proof.
  intros Hl Hr. unfold Split. rewrite (Count_one h t l r Hl Hr).
  cbn [genSplit]. rewrite (Index_first h t l r Hl).
  rewrite <- slength_app, <- sapp_assoc, sliceFrom_app.
  rewrite sapp_assoc, sliceTo_app. reflexivity.
Qed.

(** ** Conversions *)

Lemma parseLoop_bytes (base cutoff : Z) (s : string) (n v : Z) :
  parseLoop base cutoff s n = inl v -> allBytes isDigitByte s = true.
Proof.
  revert n. induction s as [|c s IH]; intros n; simpl; [reflexivity|].
  unfold isDigitByte at 1. destruct (digitOf c) as [d|]; [|discriminate].
  destruct (base <=? d); [discriminate|].
  destruct (cutoff <=? n); [discriminate|].
  destruct (_ || _); [discriminate|].
  intros H. simpl. exact (IH _ H).
Qed.

Lemma parseLoop_range (base cutoff : Z) (s : string) (n v : Z) :
  0 <= n <= maxUint64 ->
  parseLoop base cutoff s n = inl v -> 0 <= v <= maxUint64.
Proof.
  revert n. induction s as [|c s IH]; intros n Hn; simpl.
  - intros H. injection H as <-. exact Hn.
  - destruct (digitOf c) as [d|]; [|discriminate].
    destruct (base <=? d); [discriminate|].
    destruct (cutoff <=? n); [discriminate|].
    destruct (_ || _) eqn:E; [discriminate|].
    apply IH. apply orb_false_iff in E as [_ E].
    apply Z.ltb_ge in E. split; [|exact E].
    unfold wrap64. apply Z.mod_pos_bound. reflexivity.
Qed.

Lemma ParseUint_bytes (s : string) (base v : Z) :
  ParseUint s base = inl v -> allBytes isDigitByte s = true.
Proof.
  unfold ParseUint. destruct s as [|c s]; [discriminate|].
  destruct (parseLoop _ _ _ _) eqn:E; [|discriminate].
  intros _. exact (parseLoop_bytes _ _ _ _ _ E).
Qed.

Lemma ParseUint_range (s : string) (base v : Z) :
  ParseUint s base = inl v -> 0 <= v <= maxUint64.
Proof.
  unfold ParseUint. destruct s as [|c s]; [discriminate|].
  destruct (parseLoop _ _ _ _) eqn:E; [|discriminate].
  intros H. injection H as <-.
  apply (parseLoop_range _ _ _ _ _ ltac:(split; [reflexivity | discriminate]) E).
Qed.

Lemma ParseUint_nonempty (s : string) (base v : Z) :
  ParseUint s base = inl v -> (0 < String.length s)%nat.
Proof. destruct s; [discriminate | simpl; lia]. Qed.

(** No digit byte is a dot, a brace or a newline. *)
Lemma isDigitByte_notByte (x c : ascii) :
  isDigitByte x = false -> isDigitByte c = true -> notByte x c = true.
Proof.
  intros Hx Hc. unfold notByte.
  destruct (Ascii.eqb_spec c x) as [->|]; [congruence | reflexivity].
Qed.

Lemma boundary_bytes (text : string) (v : Z) (h : bool) :
  boundary text = inl (v, h) -> allBytes isDigitByte text = true.
Proof.
  unfold boundary.
  destruct (ParseUint text 10) eqn:E10; [intros _; exact (ParseUint_bytes _ _ _ E10)|].
  destruct (ParseUint text 16) eqn:E16; [intros _; exact (ParseUint_bytes _ _ _ E16)|].
  discriminate.
Qed.

Lemma boundary_range (text : string) (v : Z) (h : bool) :
  boundary text = inl (v, h) -> 0 <= v <= maxUint64.
Proof.
  unfold boundary.
  destruct (ParseUint text 10) eqn:E10.
  - intros H. injection H as <- _. exact (ParseUint_range _ _ _ E10).
  - destruct (ParseUint text 16) eqn:E16; [|discriminate].
    intros H. injection H as <- _. exact (ParseUint_range _ _ _ E16).
Qed.

Lemma boundary_nonempty (text : string) (v : Z) (h : bool) :
  boundary text = inl (v, h) -> (0 < String.length text)%nat.
Proof.
  unfold boundary.
  destruct (ParseUint text 10) eqn:E10; [intros _; exact (ParseUint_nonempty _ _ _ E10)|].
  destruct (ParseUint text 16) eqn:E16; [intros _; exact (ParseUint_nonempty _ _ _ E16)|].
  discriminate.
Qed.

(** ** The range resolver up to its loop *)

(** [rangeBounds] on a brace-wrapped token, by the two boundaries. *)
Lemma rangeBounds_wrapped (body : string) :
  rangeBounds ("{" ++ body ++ "}") =
  match Split body ellipses with
  | [l; r] =>
      match boundary l with
      | inr e => inr (errNum e)
      | inl (s, hl) =>
          match boundary r with
          | inr e => inr (errNum e)
          | inl (e, hr) =>
              if e <? s then inr (errRangeOrder s e)
              else inl (mkBounds l r s e (hl || hr))
          end
      end
  | _ => inr errInvalidArgument
  end.
Proof.
  unfold rangeBounds, openBraces, closeBraces.
  replace (Contains ("{" ++ body ++ "}") "{") with true
    by (symmetry; apply (Contains_present "{" "" (body ++ "}"))).
  replace (Contains ("{" ++ body ++ "}") "}") with true.
  2:{ symmetry. replace ("{" ++ body ++ "}") with (("{" ++ body) ++ "}" ++ "").
      - apply Contains_present.
      - now rewrite sapp_assoc. }
  cbn [negb]. rewrite (TrimPrefix_app "{" (body ++ "}")), TrimSuffix_app.
  destruct (Split body ellipses) as [|l [|r [|x rest]]]; try reflexivity.
  cbn [List.length Nat.eqb negb nth]. unfold boundary.
  destruct (ParseUint l 10); [|destruct (ParseUint l 16)];
    destruct (ParseUint r 10); try destruct (ParseUint r 16); try reflexivity.
Qed.

(** The same for a token whose boundaries hold no dot. *)
Lemma rangeBounds_token (l r : string) :
  allBytes (notByte ".") l = true -> allBytes (notByte ".") r = true ->
  rangeBounds (token l r) =
  match boundary l with
  | inr e => inr (errNum e)
  | inl (s, hl) =>
      match boundary r with
      | inr e => inr (errNum e)
      | inl (e, hr) =>
          if e <? s then inr (errRangeOrder s e)
          else inl (mkBounds l r s e (hl || hr))
      end
  end.
Proof.
  intros Hl Hr. unfold token.
  replace ("{" ++ l ++ "..." ++ r ++ "}") with ("{" ++ (l ++ "..." ++ r) ++ "}")
    by (now rewrite !sapp_assoc).
  rewrite rangeBounds_wrapped. unfold ellipses.
  now rewrite (Split_one "." ".." l r Hl Hr).
Qed.

Lemma CutPrefix_spec (s p rest : string) :
  CutPrefix s p = Some rest -> s = p ++ rest.
Proof.
  revert s. induction p as [|x p IH]; intros s.
  - destruct s; simpl; intros H; now injection H as <-.
  - destruct s as [|c s]; simpl; [discriminate|].
    destruct (Ascii.eqb_spec c x) as [->|]; [|discriminate].
    intros H. now rewrite (IH _ H).
Qed.




(** ** The loop of the range resolver *)

Lemma rangeLoop_more (b : bounds) (k fuel : nat) (i : Z) (seq r : list string) :
  rangeLoop fuel b i seq = Some r -> rangeLoop (fuel + k) b i seq = Some r.
Proof.
  revert i seq. induction fuel as [|fuel IH]; intros i seq; simpl; [discriminate|].
  destruct (i <=? end_ b); [apply IH | trivial].
Qed.

Lemma rangeLoop_S (b : bounds) (fuel : nat) (i : Z) (seq : list string) :
  rangeLoop (S fuel) b i seq =
  if i <=? end_ b
  then rangeLoop fuel b (wrap64 (i + 1)) (seq ++ [label b i])%list
  else Some seq.
Proof. reflexivity. Qed.

(** Below the largest [uint64] the counter never wraps, and the loop ends
    after one round per integer of the interval and one last test. *)
Lemma rangeLoop_run (b : bounds) (n : nat) (i : Z) (seq : list string) :
  end_ b < maxUint64 -> 0 <= i -> i + Z.of_nat n = end_ b + 1 ->
  rangeLoop (S n) b i seq = Some (seq ++ map (label b) (upto i n))%list.
Proof.
  intros Hmax. revert i seq. induction n as [|n IH]; intros i seq Hi Hn.
  - simpl. replace (i <=? end_ b) with false by (symmetry; apply Z.leb_gt; lia).
    now rewrite app_nil_r.
  - rewrite rangeLoop_S.
    replace (i <=? end_ b) with true by (symmetry; apply Z.leb_le; lia).
    replace (wrap64 (i + 1)) with (i + 1).
    + rewrite IH by lia. cbn [upto map]. now rewrite <- app_assoc.
    + unfold wrap64. symmetry. apply Z.mod_small.
      unfold maxUint64 in Hmax. lia.
Qed.

(** When the end is the largest [uint64], the test [i <= end] never fails
    and [i++] wraps from the end to zero: the loop never exits. *)
Lemma rangeLoop_forever (b : bounds) (fuel : nat) (i : Z) (seq : list string) :
  end_ b = maxUint64 -> 0 <= i <= maxUint64 -> rangeLoop fuel b i seq = None.
Proof.
  intros Hend. revert i seq. induction fuel as [|fuel IH]; intros i seq Hi; simpl.
  - reflexivity.
  - replace (i <=? end_ b) with true by (symmetry; apply Z.leb_le; lia).
    apply IH. unfold wrap64, maxUint64.
    pose proof (Z.mod_pos_bound (i + 1) (2 ^ 64) eq_refl). lia.
Qed.

Lemma parseEllipsesRange_more (fuel fuel' : nat) (pattern : string)
  (out : list string * option error) :
  parseEllipsesRange fuel pattern = Some out -> (fuel <= fuel')%nat ->
  parseEllipsesRange fuel' pattern = Some out.
Proof.
  unfold parseEllipsesRange. intros H Hle.
  destruct (rangeBounds pattern) as [b|e]; [|exact H].
  destruct (rangeLoop fuel b (start b) []) eqn:E; [|discriminate].
  replace fuel' with (fuel + (fuel' - fuel))%nat by lia.
  now rewrite (rangeLoop_more _ _ _ _ _ _ E).
Qed.

(** The result does not depend on the fuel. *)
Lemma parseEllipsesRange_unique (f1 f2 : nat) (pattern : string)
  (o1 o2 : list string * option error) :
  parseEllipsesRange f1 pattern = Some o1 ->
  parseEllipsesRange f2 pattern = Some o2 -> o1 = o2.
Proof.
  intros H1 H2.
  apply (parseEllipsesRange_more _ (Nat.max f1 f2)) in H1; [|lia].
  apply (parseEllipsesRange_more _ (Nat.max f1 f2)) in H2; [|lia].
  congruence.
Qed.


Lemma parseEllipsesRange_returns (fuel : nat) (pattern : string) (b : bounds) :
  rangeBounds pattern = inl b ->
  0 <= start b <= end_ b -> end_ b < maxUint64 ->
  (Z.to_nat (end_ b - start b + 1) < fuel)%nat ->
  parseEllipsesRange fuel pattern =
  Some (map (label b) (interval (start b) (end_ b)), None).
Proof.
  intros Hb Hse Hmax Hfuel. unfold parseEllipsesRange. rewrite Hb.
  set (n := Z.to_nat (end_ b - start b + 1)) in *.
  replace fuel with (S n + (fuel - S n))%nat by lia.
  rewrite (rangeLoop_more b _ (S n) (start b) []
             (map (label b) (upto (start b) n))); [reflexivity|].
  rewrite rangeLoop_run by (subst n; lia). reflexivity.
Qed.

Lemma parseEllipsesRange_forever (fuel : nat) (pattern : string) (b : bounds) :
  rangeBounds pattern = inl b ->
  0 <= start b -> end_ b = maxUint64 ->
  parseEllipsesRange fuel pattern = None.
Proof.
  intros Hb Hs He. unfold parseEllipsesRange. rewrite Hb.
  assert (start b <= end_ b).
  { destruct (Z.le_gt_cases (start b) (end_ b)); [assumption|]. exfalso.
    unfold rangeBounds in Hb. revert Hb.
    repeat match goal with
           | |- context [if ?c then _ else _] => destruct c eqn:?
           | |- context [match ?c with _ => _ end] => destruct c eqn:?
           end; try discriminate.
    all: intros Hb; injection Hb as <-; simpl in *;
      match goal with E : (_ <? _) = false |- _ => apply Z.ltb_ge in E end; lia. }
  rewrite rangeLoop_forever; [reflexivity | assumption | lia].
Qed.

Lemma boundary_nodot (text : string) (v : Z) (h : bool) :
  boundary text = inl (v, h) -> allBytes (notByte ".") text = true.
Proof.
  intros H. apply (allBytes_weaken isDigitByte); [|exact (boundary_bytes _ _ _ H)].
  intros c. now apply isDigitByte_notByte.
Qed.



(** ** The claims about the range resolver *)

(** Each boundary is converted on its own: when the left boundary is
    hexadecimal only and the right boundary is decimal, the right boundary
    keeps the value of its decimal conversion, and the one flag of the range
    that selects the digits of the labels becomes hexadecimal. *)
Lemma rangeBounds_mixed_bases (l r : string) (s e : Z) (ne : NumError) :
  ParseUint l 10 = inr ne -> ParseUint l 16 = inl s -> ParseUint r 10 = inl e ->
  rangeBounds (token l r) =
  if e <? s then inr (errRangeOrder s e) else inl (mkBounds l r s e true).
Proof.
  intros Hl10 Hl16 Hr10.
  assert (Bl : boundary l = inl (s, true)) by (unfold boundary; now rewrite Hl10, Hl16).
  assert (Br : boundary r = inl (e, false)) by (unfold boundary; now rewrite Hr10).
  rewrite rangeBounds_token, Bl, Br; [reflexivity | |].
  - exact (boundary_nodot _ _ _ Bl).
  - exact (boundary_nodot _ _ _ Br).
Qed.

Lemma rangeBounds_mixed_bases_witness :
  rangeBounds "{a...10}" = inl (mkBounds "a" "10" 10 10 true).
Proof.
  exact (rangeBounds_mixed_bases "a" "10" 10 10 (mkNumError "a" ErrSyntax)
           eq_refl eq_refl eq_refl).
Defined.

(** C1 fails on the code: in [{a...10}] the left boundary is hexadecimal
    only and the right boundary, read as hexadecimal, is 16; the resolver
    keeps the 10 of its decimal conversion and yet writes the labels in
    hexadecimal, so the range is the one label [a] and does not reach its
    right text.  The same mix of a decimal value with hexadecimal digits
    ends [{a...19}] at [13], refuses [{f...10}] as 15 above 10, and starts
    [{10...1f}] at [a]. *)
Theorem mixed_bases_failing_inputs (fuel : nat) :
  parses "a" 10 = false /\ ParseUint "a" 16 = inl 10
  /\ ParseUint "10" 10 = inl 10 /\ ParseUint "10" 16 = inl 16
  /\ rangeBounds "{a...10}" = inl (mkBounds "a" "10" 10 10 true)
  /\ parseEllipsesRange (2 + fuel) "{a...10}" = Some (["a"], None)
  /\ parseEllipsesRange (11 + fuel) "{a...19}"
     = Some (["a"; "b"; "c"; "d"; "e"; "f"; "10"; "11"; "12"; "13"], None)
  /\ parseEllipsesRange fuel "{f...10}" = Some ([], Some (errRangeOrder 15 10))
  /\ parseEllipsesRange (23 + fuel) "{10...1f}"
     = Some (["a"; "b"; "c"; "d"; "e"; "f"; "10"; "11"; "12"; "13"; "14";
              "15"; "16"; "17"; "18"; "19"; "1a"; "1b"; "1c"; "1d"; "1e";
              "1f"], None).
Proof.
  repeat split; reflexivity.
Qed.

(** C3, as the code has it: neither boundary of [{1...10}] starts with [0],
    so the labels are [1, 2, ..., 10] without padding. *)
Theorem range_1_10_labels (fuel : nat) :
  (11 <= fuel)%nat ->
  parseEllipsesRange fuel "{1...10}" =
  Some (["1"; "2"; "3"; "4"; "5"; "6"; "7"; "8"; "9"; "10"], None).
Proof.
  intros H. apply (parseEllipsesRange_more 11); [reflexivity | exact H].
Qed.

Lemma range_1_10_labels_witness :
  parseEllipsesRange 11 "{1...10}" =
  Some (["1"; "2"; "3"; "4"; "5"; "6"; "7"; "8"; "9"; "10"], None).
Proof. exact (range_1_10_labels 11 (le_n 11)). Defined.

(** C3 fails: with no amount of fuel does [{1...10}] resolve to the labels
    [01, 02, ..., 10]. *)
Lemma range_1_10_counterexample :
  ~ exists fuel,
      parseEllipsesRange fuel "{1...10}" =
      Some (["01"; "02"; "03"; "04"; "05"; "06"; "07"; "08"; "09"; "10"], None).
Proof.
  intros [fuel H].
  assert (H' : parseEllipsesRange 11 "{1...10}" =
               Some (["1"; "2"; "3"; "4"; "5"; "6"; "7"; "8"; "9"; "10"], None))
    by reflexivity.
  pose proof (parseEllipsesRange_unique _ _ _ _ _ H H') as E. discriminate E.
Qed.

(** C6 fails on the code: when the right boundary is the largest [uint64],
    the loop counter wraps to zero instead of passing the end, and the
    resolver returns for no amount of fuel; neither does the extractor on an
    input with such a span. *)
Theorem range_to_max_never_returns (fuel : nat) :
  parseEllipsesRange fuel "{18446744073709551615...18446744073709551615}" = None
  /\ parseEllipsesRange fuel "{0...ffffffffffffffff}" = None
  /\ FindEllipsesPatterns fuel "disk{0...ffffffffffffffff}" = None.
Proof.
  assert (H1 : parseEllipsesRange fuel
                 "{18446744073709551615...18446744073709551615}" = None).
  { eapply parseEllipsesRange_forever; [vm_compute; reflexivity | |];
      vm_compute; congruence. }
  assert (H2 : parseEllipsesRange fuel "{0...ffffffffffffffff}" = None).
  { eapply parseEllipsesRange_forever; [vm_compute; reflexivity | |];
      vm_compute; congruence. }
  repeat split; try assumption.
  unfold FindEllipsesPatterns, findPatterns.
  change (FindStringSubmatch regexpEllipses "disk{0...ffffffffffffffff}")
    with ["disk{0...ffffffffffffffff}"; "disk"; "{0...ffffffffffffffff}"; ""].
  cbn [List.length Nat.eqb tl peel part nth].
  change (MatchString regexpEllipses "disk") with false.
  cbv beta iota. unfold finish.
  cbn [List.length Nat.ltb Nat.leb part nth]. now rewrite H2.
Qed.

(** The digits are minimal: the first digit of a number above zero is not
    zero. *)
Lemma fmtDigits_head (base : Z) (fuel : nat) (u : Z) (buf : string) :
  1 < base -> 0 < u < base ^ Z.of_nat fuel ->
  exists d rest,
    fmtDigits fuel base u buf = String (digitChar d) rest /\ 0 < d < base.
Proof.
  intros Hbase. revert u buf.
  induction fuel as [|fuel IH]; intros u buf Hu.
  - simpl in Hu. lia.
  - cbn [fmtDigits]. destruct (base <=? u) eqn:E.
    + apply Z.leb_le in E. apply IH.
      rewrite Nat2Z.inj_succ, Z.pow_succ_r in Hu by lia. split.
      * apply Z.div_str_pos. lia.
      * apply Z.div_lt_upper_bound; lia.
    + apply Z.leb_gt in E. exists u, buf. split; [reflexivity | lia].
Qed.

Lemma digitChar_nonzero (d : Z) : 0 < d < 16 -> digitChar d <> "0"%char.
Proof.
  intros H.
  assert (Hd : d = 1 \/ d = 2 \/ d = 3 \/ d = 4 \/ d = 5 \/ d = 6 \/ d = 7
               \/ d = 8 \/ d = 9 \/ d = 10 \/ d = 11 \/ d = 12 \/ d = 13
               \/ d = 14 \/ d = 15) by lia.
  repeat (destruct Hd as [-> | Hd]; [discriminate|]). subst d. discriminate.
Qed.

Lemma digitsOf_minimal (hex : bool) (i : Z) :
  0 <= i <= maxUint64 ->
  HasPrefix (digitsOf hex i) "0" = true -> digitsOf hex i = "0".
Proof.
  intros Hi. destruct (Z.eq_dec i 0) as [-> | Hnz].
  - intros _. destruct hex; reflexivity.
  - unfold digitsOf, fmtInteger.
    assert (Hb : 1 < (if hex then 16 else 10) <= 16) by (destruct hex; lia).
    assert (Hp : maxUint64 < (if hex then 16 else 10) ^ Z.of_nat 64)
      by (destruct hex; reflexivity).
    destruct (fmtDigits_head (if hex then 16 else 10) 64 i "")
      as (d & rest & -> & Hd); [lia | lia |].
    unfold HasPrefix. cbn [CutPrefix].
    destruct (Ascii.eqb_spec (digitChar d) "0") as [E | _]; [|discriminate].
    exfalso. apply (digitChar_nonzero d); [lia | exact E].
Qed.

(** ** The width of a padded label *)

Lemma byteVal_digitChar (d : Z) :
  0 <= d < 10 -> byteVal (digitChar d) = 48 + d.
Proof.
  intros H.
  assert (Hd : d = 0 \/ d = 1 \/ d = 2 \/ d = 3 \/ d = 4 \/ d = 5 \/ d = 6
               \/ d = 7 \/ d = 8 \/ d = 9) by lia.
  repeat (destruct Hd as [-> | Hd]; [reflexivity|]). subst d. reflexivity.
Qed.

(** One round of [parsenum] on a decimal digit. *)
Lemma parsenum_digit (d num : Z) (s : string) :
  0 <= d < 10 ->
  parsenum (String (digitChar d) s) num =
  if tooLarge num then None else parsenum s (num * 10 + d).
Proof.
  intros Hd. cbn [parsenum]. rewrite (byteVal_digitChar d Hd).
  replace (48 <=? 48 + d) with true by (symmetry; apply Z.leb_le; lia).
  replace (48 + d <=? 57) with true by (symmetry; apply Z.leb_le; lia).
  cbn [andb]. now replace (48 + d - 48) with d by lia.
Qed.

Lemma tooLarge_false (x : Z) : 0 <= x <= 1000000 -> tooLarge x = false.
Proof.
  intros H. unfold tooLarge.
  replace (1000000 <? x) with false by (symmetry; apply Z.ltb_ge; lia).
  replace (x <? -1000000) with false by (symmetry; apply Z.ltb_ge; lia).
  reflexivity.
Qed.

Lemma tooLarge_true (x : Z) : 1000000 < x -> tooLarge x = true.
Proof.
  intros H. unfold tooLarge.
  now replace (1000000 <? x) with true by (symmetry; apply Z.ltb_lt; lia).
Qed.

(** [parsenum] reads back the decimal digits of a width whose digits but the
    last make a number of at most 10^6. *)
Lemma parsenum_fmtDigits (fuel : nat) (w : Z) (buf : string) :
  0 <= w -> w / 10 <= 1000000 -> w < 10 ^ Z.of_nat fuel ->
  parsenum (fmtDigits fuel 10 w buf) 0 = parsenum buf w.
Proof.
  revert w buf. induction fuel as [|fuel IH]; intros w buf Hw Hq Hpow.
  - simpl in Hpow. replace w with 0 by lia. reflexivity.
  - cbn [fmtDigits]. destruct (10 <=? w) eqn:E.
    + apply Z.leb_le in E.
      pose proof (Z.div_mod w 10 ltac:(lia)) as Hdm.
      pose proof (Z.mod_pos_bound w 10 ltac:(lia)) as Hmod.
      assert (H0 : 0 <= w / 10) by (apply Z.div_pos; lia).
      rewrite IH.
      * rewrite (parsenum_digit _ _ _ Hmod), tooLarge_false by lia.
        f_equal. lia.
      * exact H0.
      * assert (w / 10 / 10 <= w / 10); [|lia].
        apply Z.div_le_upper_bound; lia.
      * rewrite Nat2Z.inj_succ, Z.pow_succ_r in Hpow by lia.
        apply Z.div_lt_upper_bound; lia.
    + apply Z.leb_gt in E.
      rewrite (parsenum_digit w 0 buf) by lia. reflexivity.
Qed.

(** [parsenum] gives up on the digits of a number above 10^6 that are
    followed by one more digit. *)
Lemma parsenum_fmtDigits_large (fuel : nat) (w d : Z) (buf : string) :
  1000000 < w < 10 ^ Z.of_nat fuel -> 0 <= d < 10 ->
  parsenum (fmtDigits fuel 10 w (String (digitChar d) buf)) 0 = None.
Proof.
  revert w d buf. induction fuel as [|fuel IH]; intros w d buf Hw Hd.
  - simpl in Hw. lia.
  - cbn [fmtDigits].
    replace (10 <=? w) with true by (symmetry; apply Z.leb_le; lia).
    pose proof (Z.div_mod w 10 ltac:(lia)) as Hdm.
    pose proof (Z.mod_pos_bound w 10 ltac:(lia)) as Hmod.
    assert (Hq : w / 10 < 10 ^ Z.of_nat fuel).
    { rewrite Nat2Z.inj_succ, Z.pow_succ_r in Hw by lia.
      apply Z.div_lt_upper_bound; lia. }
    destruct (Z_lt_le_dec 1000000 (w / 10)) as [Hbig | Hsmall].
    + apply IH; [lia | exact Hmod].
    + assert (H0 : 0 <= w / 10) by (apply Z.div_pos; lia).
      rewrite parsenum_fmtDigits; [| exact H0 | | exact Hq].
      * rewrite (parsenum_digit _ _ _ Hmod), tooLarge_false by lia.
        rewrite (parsenum_digit _ _ _ Hd), tooLarge_true by lia.
        reflexivity.
      * assert (w / 10 / 10 <= w / 10); [|lia].
        apply Z.div_le_upper_bound; lia.
Qed.

(** The flag loop stops at the first digit of a width above zero. *)
Lemma flags_width (w : Z) :
  0 < w < 10 ^ 64 ->
  flags ("0" ++ Sprintf_d w) = Sprintf_d w /\ Sprintf_d w <> "".
Proof.
  intros Hw. unfold Sprintf_d, fmtInteger.
  destruct (fmtDigits_head 10 64 w "") as (d & rest & E & Hd); [lia | exact Hw |].
  rewrite E. split; [|discriminate].
  change ("0" ++ String (digitChar d) rest)
    with (String "0" (String (digitChar d) rest)).
  cbn [flags]. rewrite Ascii.eqb_refl.
  destruct (Ascii.eqb_spec (digitChar d) "0") as [E0 | _]; [|reflexivity].
  exfalso. apply (digitChar_nonzero d); [lia | exact E0].
Qed.

(** A width below 10,000,010 is read in full: the number is padded with
    zeros to that width. *)
Lemma Sprintf_directive_width (base : Z) (width : nat) (u : Z) :
  Z.of_nat width < 10000010 ->
  Sprintf_directive base ("0" ++ Sprintf_d (Z.of_nat width)) u
  = padZero width (fmtInteger base u).
Proof.
  intros Hw. destruct width as [|width]; [reflexivity|].
  set (w := Z.of_nat (S width)) in *.
  assert (Hpos : 0 < w < 10 ^ 64) by (unfold w; lia).
  destruct (flags_width w Hpos) as [Hflags Hne].
  unfold Sprintf_directive. rewrite Hflags.
  destruct (Sprintf_d w) as [|c literal] eqn:E; [contradiction|].
  rewrite <- E. unfold Sprintf_d, fmtInteger.
  rewrite parsenum_fmtDigits.
  - cbn [parsenum]. unfold w. now rewrite Nat2Z.id.
  - lia.
  - assert (w / 10 < 1000001) by (apply Z.div_lt_upper_bound; lia). lia.
  - change (Z.of_nat 64) with 64. lia.
Qed.

(** From 10,000,010 on the width is refused: no digits of the number are
    written, only the two complaints of [doPrintf]. *)
Lemma Sprintf_directive_refused (base : Z) (width : nat) (u : Z) :
  10000010 <= Z.of_nat width < 2 ^ 63 ->
  Sprintf_directive base ("0" ++ Sprintf_d (Z.of_nat width)) u = noVerbExtra u.
Proof.
  intros Hw. set (w := Z.of_nat width) in *.
  assert (Hpos : 0 < w < 10 ^ 64) by lia.
  destruct (flags_width w Hpos) as [Hflags Hne].
  unfold Sprintf_directive. rewrite Hflags.
  destruct (Sprintf_d w) as [|c literal] eqn:E; [contradiction|].
  rewrite <- E. unfold Sprintf_d, fmtInteger.
  change (fmtDigits 64 10 w "")
    with (if 10 <=? w
          then fmtDigits 63 10 (w / 10) (String (digitChar (w mod 10)) "")
          else String (digitChar w) "").
  replace (10 <=? w) with true by (symmetry; apply Z.leb_le; lia).
  pose proof (Z.mod_pos_bound w 10 ltac:(lia)) as Hmod.
  rewrite parsenum_fmtDigits_large; [reflexivity | | exact Hmod].
  split.
  - assert (1000001 <= w / 10) by (apply Z.div_le_lower_bound; lia). lia.
  - apply Z.div_lt_upper_bound; [lia|]. change (Z.of_nat 63) with 63. lia.
Qed.

(** The label of a range whose right text is shorter than 10,000,010 bytes. *)
Lemma label_digits (b : bounds) (i : Z) :
  Z.of_nat (String.length (hi b)) < 10000010 ->
  label b i =
  if padded b
  then padZero (String.length (hi b)) (digitsOf (hexadecimal b) i)
  else digitsOf (hexadecimal b) i.
Proof.
  intros Hw. unfold label, Sprintf_0x, Sprintf_0d, Sprintf_x, Sprintf_d, digitsOf.
  rewrite !(Sprintf_directive_width _ _ _ Hw).
  destruct (padded b); destruct (hexadecimal b); reflexivity.
Qed.

(** X16, the padding policy where the resolver returns and [fmt] takes the
    width: for a range whose boundaries resolve to [s <= e], with [e] below the
    largest [uint64] and a right text shorter than 10,000,010 bytes, the
    resolver returns the digits of [s], ..., [e] in the base of the range,
    zero-padded to the length of the right text exactly when the left text
    has a leading [0] and more than one byte, or the right text starts with
    [0]; the digits themselves are minimal (no [0] in front of a number above
    zero), so a label that is not padded has minimal width. *)
Theorem parseEllipsesRange_padding (l r : string) (s e : Z) (hl hr : bool)
  (fuel : nat) :
  boundary l = inl (s, hl) -> boundary r = inl (e, hr) -> s <= e ->
  e < maxUint64 -> Z.of_nat (String.length r) < 10000010 ->
  (Z.to_nat (e - s + 1) < fuel)%nat ->
  let pads := HasPrefix l "0" && (1 <? String.length l)%nat || HasPrefix r "0" in
  let width := String.length r in
  let digits := digitsOf (hl || hr) in
  let labels :=
    map (fun i =>
           if pads then zeros (width - String.length (digits i)) ++ digits i
           else digits i)
        (interval s e) in
  parseEllipsesRange fuel (token l r) = Some (labels, None)
  /\ (forall fuel' out,
        parseEllipsesRange fuel' (token l r) = Some out -> out = (labels, None))
  /\ (forall i, 0 <= i <= maxUint64 ->
        HasPrefix (digits i) "0" = true -> digits i = "0").
Proof.
  intros Bl Br Hse Hmax Hwidth Hfuel. cbv zeta.
  set (b := mkBounds l r s e (hl || hr)).
  assert (Hb : rangeBounds (token l r) = inl b).
  { rewrite rangeBounds_token, Bl, Br.
    - now replace (e <? s) with false by (symmetry; apply Z.ltb_ge; lia).
    - exact (boundary_nodot _ _ _ Bl).
    - exact (boundary_nodot _ _ _ Br). }
  assert (Hlabel : forall i,
             label b i =
             if HasPrefix l "0" && (1 <? String.length l)%nat || HasPrefix r "0"
             then zeros (String.length r - String.length (digitsOf (hl || hr) i))
                  ++ digitsOf (hl || hr) i
             else digitsOf (hl || hr) i).
  { intros i. now rewrite (label_digits b i Hwidth). }
  pose proof (boundary_range _ _ _ Bl) as Rs.
  pose proof (boundary_range _ _ _ Br) as Re.
  assert (Hret : forall fuel, (Z.to_nat (e - s + 1) < fuel)%nat ->
                   parseEllipsesRange fuel (token l r) =
                   Some (map (label b) (interval s e), None)).
  { intros fuel0 Hfuel0.
    apply (parseEllipsesRange_returns fuel0 _ b Hb); cbn [start end_ b]; lia. }
  rewrite <- (map_ext _ _ Hlabel).
  split; [exact (Hret fuel Hfuel) | split; [|intros i; apply digitsOf_minimal]].
  intros fuel' out H. symmetry.
  eapply parseEllipsesRange_unique; [|exact H]. exact (Hret fuel Hfuel).
Qed.

Lemma parseEllipsesRange_padding_witness :
  parseEllipsesRange 5 "{08...0b}" = Some (["08"; "09"; "0a"; "0b"], None).
Proof.
  refine (proj1 (parseEllipsesRange_padding "08" "0b" 8 11 false true 5%nat
                   _ _ _ _ _ _)).
  - reflexivity.
  - reflexivity.
  - discriminate.
  - reflexivity.
  - reflexivity.
  - vm_compute. lia.
Defined.

(** C7 fails on the code: on [{00...ffffffffffffffff}] both boundaries
    resolve, to 0 and to the largest [uint64], the left text has a leading
    [0] and two bytes, so every label is due with sixteen digits; the loop
    counter wraps to zero instead of passing the end and the resolver returns
    no label at all, for no amount of fuel; neither does the extractor on an
    input with this span. *)
Theorem padded_range_to_max_never_returns (fuel : nat) :
  boundary "00" = inl (0, false)
  /\ boundary "ffffffffffffffff" = inl (maxUint64, true)
  /\ (exists b, rangeBounds "{00...ffffffffffffffff}" = inl b
                /\ padded b = true /\ label b 0 = "0000000000000000")
  /\ parseEllipsesRange fuel "{00...ffffffffffffffff}" = None
  /\ FindEllipsesPatterns fuel "disk{00...ffffffffffffffff}" = None.
Proof.
  assert (H : parseEllipsesRange fuel "{00...ffffffffffffffff}" = None).
  { eapply parseEllipsesRange_forever; [vm_compute; reflexivity | |];
      vm_compute; congruence. }
  split; [reflexivity | split; [reflexivity | split; [| split; [exact H|]]]].
  - eexists. split; [vm_compute; reflexivity | split; reflexivity].
  - unfold FindEllipsesPatterns, findPatterns.
    change (FindStringSubmatch regexpEllipses "disk{00...ffffffffffffffff}")
      with ["disk{00...ffffffffffffffff}"; "disk"; "{00...ffffffffffffffff}"; ""].
    cbn [List.length Nat.eqb tl peel part nth].
    change (MatchString regexpEllipses "disk") with false.
    cbv beta iota. unfold finish.
    cbn [List.length Nat.ltb Nat.leb part nth]. now rewrite H.
Qed.


(** ** The expression of the extractor *)

Lemma star_app (p : ascii -> bool) (a rest : string) :
  allBytes p a = true -> headFails p rest = true ->
  star p (a ++ rest) = (a, rest).
Proof.
  intros Ha Hr. induction a as [|c a IH]; simpl.
  - destruct rest as [|c rest]; [reflexivity|].
    simpl in Hr |- *. destruct (p c); [discriminate Hr | reflexivity].
  - simpl in Ha. apply andb_true_iff in Ha as [Hc Ha].
    now rewrite Hc, (IH Ha).
Qed.

Lemma star_all (p : ascii -> bool) (s a rest : string) :
  star p s = (a, rest) -> allBytes p a = true /\ s = a ++ rest.
Proof.
  revert a rest. induction s as [|c s IH]; intros a rest; simpl.
  - intros H. injection H as <- <-. split; reflexivity.
  - destruct (p c) eqn:Hc.
    + destruct (star p s) as [run rest'] eqn:E. intros H. injection H as <- <-.
      destruct (IH _ _ eq_refl) as [Hrun ->]. simpl. now rewrite Hc, Hrun.
    + intros H. injection H as <- <-. split; reflexivity.
Qed.

Lemma token_app (l r rest : string) :
  token l r ++ rest = String "{" (l ++ "..." ++ r ++ String "}" rest).
Proof. unfold token. now rewrite !sapp_assoc. Qed.

Lemma matchSpan_token (l r rest : string) :
  allBytes isClass l = true -> allBytes isClass r = true ->
  matchSpan (token l r ++ rest) = Some (token l r, rest).
Proof.
  intros Hl Hr. unfold token.
  replace (("{" ++ l ++ "..." ++ r ++ "}") ++ rest)
    with (String "{" (l ++ "..." ++ (r ++ "}" ++ rest)))
    by (now rewrite !sapp_assoc).
  cbn [matchSpan]. rewrite Ascii.eqb_refl.
  rewrite (star_app isClass l ("..." ++ r ++ "}" ++ rest) Hl eq_refl).
  rewrite (CutPrefix_app "..." (r ++ "}" ++ rest)).
  rewrite (star_app isClass r ("}" ++ rest) Hr eq_refl).
  reflexivity.
Qed.

(** What [matchSpan] returns is a token with boundaries of the class. *)
Lemma matchSpan_shape (s sp rest : string) :
  matchSpan s = Some (sp, rest) ->
  exists l r, sp = token l r /\ allBytes isClass l = true
              /\ allBytes isClass r = true /\ s = sp ++ rest.
Proof.
  unfold matchSpan. destruct s as [|c s]; [discriminate|].
  destruct (Ascii.eqb_spec c "{") as [->|]; [|discriminate].
  destruct (star isClass s) as [a s2] eqn:Ea.
  destruct (CutPrefix s2 "...") as [s3|] eqn:Ec; [|discriminate].
  destruct (star isClass s3) as [b s4] eqn:Eb.
  destruct s4 as [|c' s5]; [discriminate|].
  destruct (Ascii.eqb_spec c' "}") as [->|]; [|discriminate].
  intros H. injection H as <- <-.
  apply star_all in Ea as [Ha ->]. apply star_all in Eb as [Hb ->].
  apply CutPrefix_spec in Ec as ->.
  exists a, b. repeat split; try assumption.
  symmetry. apply (token_app a b s5).
Qed.

Lemma matchSpan_absent (s : string) :
  headFails (fun c => Ascii.eqb c "{") s = true -> matchSpan s = None.
Proof.
  destruct s as [|c s]; [reflexivity|]. simpl.
  now destruct (Ascii.eqb c "{").
Qed.

(** Without an opening brace there is no match. *)
Lemma matchAt_absent (s : string) :
  allBytes (notByte "{") s = true -> matchAt s = None.
Proof.
  induction s as [|c s IH]; [reflexivity|].
  intros H. simpl in H. apply andb_true_iff in H as [Hc Hs].
  cbn [matchAt]. rewrite (IH Hs), matchSpan_absent.
  - now destruct (isAny c).
  - exact Hc.
Qed.

Lemma search_absent (s : string) :
  allBytes (notByte "{") s = true -> search s = None.
Proof.
  induction s as [|c s IH]; [reflexivity|].
  intros H. cbn [search]. rewrite (matchAt_absent _ H).
  simpl in H. apply andb_true_iff in H as [_ Hs]. exact (IH Hs).
Qed.

Lemma isClass_notBrace (c : ascii) : isClass c = true -> notByte "{" c = true.
Proof.
  intros H. unfold notByte.
  destruct (Ascii.eqb_spec c "{") as [->|]; [discriminate H | reflexivity].
Qed.

Lemma isClass_isAny (c : ascii) : isClass c = true -> isAny c = true.
Proof.
  intros H. unfold isAny.
  destruct (Ascii.eqb_spec c newline) as [->|]; [discriminate H | reflexivity].
Qed.

Lemma isPlain_notBrace (c : ascii) : isPlain c = true -> notByte "{" c = true.
Proof.
  unfold isPlain. intros H.
  apply andb_true_iff in H as [H _]. now apply andb_true_iff in H as [H _].
Qed.

Lemma isPlain_notClose (c : ascii) : isPlain c = true -> notByte "}" c = true.
Proof.
  unfold isPlain. intros H.
  apply andb_true_iff in H as [H _]. now apply andb_true_iff in H as [_ H].
Qed.

Lemma isPlain_isAny (c : ascii) : isPlain c = true -> isAny c = true.
Proof. unfold isPlain. intros H. now apply andb_true_iff in H as [_ H]. Qed.

(** The match on a text that ends with a span and plain text: group 1 is all
    that precedes this last span. *)
Lemma matchAt_last (w l r suf : string) :
  allBytes isAny w = true ->
  allBytes isClass l = true -> allBytes isClass r = true ->
  allBytes isPlain suf = true ->
  matchAt (w ++ token l r ++ suf) = Some (w, token l r, suf).
Proof.
  intros Hw Hl Hr Hsuf.
  assert (Hhere : matchSpan (token l r ++ suf) = Some (token l r, suf))
    by now apply matchSpan_token.
  assert (Hg3 : star isAny suf = (suf, "")).
  { rewrite <- (sapp_nil_r suf) at 1. apply star_app; [|reflexivity].
    apply (allBytes_weaken isPlain); [apply isPlain_isAny | exact Hsuf]. }
  induction w as [|c w IH].
  - change ("" ++ token l r ++ suf) with (token l r ++ suf).
    destruct (token l r ++ suf) as [|c s] eqn:E; [discriminate E|].
    cbn [matchAt]. rewrite Hhere, Hg3. cbn [fst].
    assert (Hc : c = "{"%char /\ s = l ++ "..." ++ r ++ "}" ++ suf).
    { unfold token in E. rewrite !sapp_assoc in E. injection E as <- <-.
      split; reflexivity. }
    destruct Hc as [-> ->]. cbn [isAny Ascii.eqb Bool.eqb newline negb andb].
    rewrite matchAt_absent; [reflexivity|].
    rewrite !allBytes_app.
    rewrite (allBytes_weaken _ _ l isClass_notBrace Hl).
    rewrite (allBytes_weaken _ _ r isClass_notBrace Hr).
    rewrite (allBytes_weaken _ _ suf isPlain_notBrace Hsuf).
    reflexivity.
  - simpl in Hw. apply andb_true_iff in Hw as [Hc Hw].
    change (String c w ++ token l r ++ suf)
      with (String c (w ++ token l r ++ suf)).
    cbn [matchAt]. now rewrite Hc, (IH Hw).
Qed.

Lemma search_last (w l r suf : string) :
  allBytes isAny w = true ->
  allBytes isClass l = true -> allBytes isClass r = true ->
  allBytes isPlain suf = true ->
  search (w ++ token l r ++ suf) = Some (w, token l r, suf).
Proof.
  intros Hw Hl Hr Hsuf.
  pose proof (matchAt_last w l r suf Hw Hl Hr Hsuf) as H.
  destruct (w ++ token l r ++ suf); cbn [search]; now rewrite H.
Qed.

(** Group 2 of any match is a token with boundaries of the class, and
    group 1 is shorter than the text searched. *)
Lemma matchAt_shape (s g1 g2 g3 : string) :
  matchAt s = Some (g1, g2, g3) ->
  (exists l r, g2 = token l r /\ allBytes isClass l = true
               /\ allBytes isClass r = true)
  /\ (String.length g1 < String.length s)%nat.
Proof.
  revert g1. induction s as [|c s IH]; intros g1.
  - cbn [matchAt matchSpan]. discriminate.
  - assert (Hhere : match matchSpan (String c s) with
                    | Some (sp, rest) => Some ("", sp, fst (star isAny rest))
                    | None => None
                    end = Some (g1, g2, g3) ->
                    (exists l r, g2 = token l r /\ allBytes isClass l = true
                                 /\ allBytes isClass r = true)
                    /\ (String.length g1 < String.length (String c s))%nat).
    { destruct (matchSpan (String c s)) as [[sp rest]|] eqn:E; [|discriminate].
      intros H. injection H as <- <- <-.
      destruct (matchSpan_shape _ _ _ E) as (l & r & -> & Hl & Hr & _).
      split; [eauto | simpl; lia]. }
    cbn [matchAt]. destruct (isAny c); [|exact Hhere].
    destruct (matchAt s) as [[[h1 h2] h3]|] eqn:E; [|exact Hhere].
    intros H. injection H as <- <- <-.
    destruct (IH _ eq_refl) as [Hs Hlen]. split; [exact Hs | simpl; lia].
Qed.

Lemma search_shape (s g1 g2 g3 : string) :
  search s = Some (g1, g2, g3) ->
  (exists l r, g2 = token l r /\ allBytes isClass l = true
               /\ allBytes isClass r = true)
  /\ (String.length g1 < String.length s)%nat.
Proof.
  induction s as [|c s IH]; cbn [search].
  - destruct (matchAt "") as [m|] eqn:E; [|discriminate].
    intros H. injection H as ->. exact (matchAt_shape _ _ _ _ E).
  - destruct (matchAt (String c s)) as [m|] eqn:E.
    + intros H. injection H as ->. exact (matchAt_shape _ _ _ _ E).
    + intros H. destruct (IH H) as [Hs Hlen]. split; [exact Hs | simpl; lia].
Qed.

(** ** The extractor *)

Lemma FindStringSubmatch_search (s : string) :
  FindStringSubmatch regexpEllipses s =
  match search s with
  | Some (g1, g2, g3) => [g1 ++ g2 ++ g3; g1; g2; g3]
  | None => []
  end.
Proof. reflexivity. Qed.

Lemma MatchString_search (s : string) :
  MatchString regexpEllipses s =
  match search s with Some _ => true | None => false end.
Proof. reflexivity. Qed.

Lemma wellFormed_parts (sp : span) :
  wellFormed sp = true ->
  allBytes isClass (spanLo sp) = true /\ allBytes isClass (spanHi sp) = true
  /\ allBytes isPlain (spanAfter sp) = true.
Proof.
  unfold wellFormed. intros H.
  apply andb_true_iff in H as [H H3]. apply andb_true_iff in H as [H1 H2].
  auto.
Qed.

Lemma FindStringSubmatch_last (w : string) (sp : span) :
  allBytes isAny w = true -> wellFormed sp = true ->
  FindStringSubmatch regexpEllipses (w ++ spanToken sp ++ spanAfter sp) =
  [w ++ spanToken sp ++ spanAfter sp; w; spanToken sp; spanAfter sp].
Proof.
  intros Hw Hsp. apply wellFormed_parts in Hsp as (Hl & Hr & Ha).
  rewrite FindStringSubmatch_search. unfold spanToken.
  now rewrite (search_last w _ _ _ Hw Hl Hr Ha).
Qed.

Lemma render_app (a b : list span) : render (a ++ b) = render a ++ render b.
Proof.
  induction a as [|sp a IH]; cbn [render app]; [reflexivity|].
  now rewrite IH, !sapp_assoc.
Qed.

Lemma render_snoc (a : list span) (sp : span) :
  render (a ++ [sp]) = render a ++ spanToken sp ++ spanAfter sp.
Proof. rewrite render_app. cbn [render]. now rewrite sapp_nil_r. Qed.

Lemma token_any (l r : string) :
  allBytes isClass l = true -> allBytes isClass r = true ->
  allBytes isAny (token l r) = true.
Proof.
  intros Hl Hr. unfold token. rewrite !allBytes_app.
  rewrite (allBytes_weaken _ _ l isClass_isAny Hl).
  rewrite (allBytes_weaken _ _ r isClass_isAny Hr).
  reflexivity.
Qed.

Lemma render_any (spans : list span) :
  Forall (fun sp => wellFormed sp = true) spans ->
  allBytes isAny (render spans) = true.
Proof.
  induction 1 as [|sp spans Hsp _ IH]; [reflexivity|].
  apply wellFormed_parts in Hsp as (Hl & Hr & Ha).
  cbn [render]. rewrite !allBytes_app. unfold spanToken.
  rewrite (token_any _ _ Hl Hr), IH.
  now rewrite (allBytes_weaken _ _ _ isPlain_isAny Ha).
Qed.

Lemma length_render (spans : list span) :
  (List.length spans <= String.length (render spans))%nat.
Proof.
  induction spans as [|sp spans IH]; cbn [render List.length]; [simpl; lia|].
  rewrite !slength_app. unfold spanToken, token. rewrite slength_app. simpl. lia.
Qed.

Lemma resolved_wellFormed parser (items : list (span * list string)) :
  Forall (resolvesWith parser) items ->
  Forall (fun sp => wellFormed sp = true) (map fst items).
Proof.
  induction 1 as [|it items [Hwf _] _ IH]; simpl; constructor; assumption.
Qed.

(** A text that ends with well-formed spans after a text that matches still
    matches. *)
Lemma search_render (base : string) (spans : list span) :
  allBytes isAny base = true -> search base <> None ->
  Forall (fun sp => wellFormed sp = true) spans ->
  search (base ++ render spans) <> None.
Proof.
  intros Hb Hs Hwf. destruct (rev spans) as [|sp tsr] eqn:E.
  - apply (f_equal (@rev span)) in E. rewrite rev_involutive in E. subst spans.
    simpl. now rewrite sapp_nil_r.
  - apply (f_equal (@rev span)) in E. rewrite rev_involutive in E.
    simpl in E. subst spans.
    apply Forall_app in Hwf as [Hinit Hsp].
    apply Forall_inv in Hsp.
    apply wellFormed_parts in Hsp as (Hl & Hr & Ha).
    rewrite render_snoc, <- sapp_assoc. unfold spanToken.
    rewrite search_last; try assumption; [discriminate|].
    rewrite allBytes_app, Hb. now apply render_any.
Qed.

Section Peeling.

Variable arg : string.
Variable parser : string -> option (list string * option error).

Local Abbreviation peel' := (peel arg regexpEllipses parser).

Lemma peel_S (fuel : nat) (parts : list string) (patterns : list Pattern) :
  peel' (S fuel) parts patterns =
  if MatchString regexpEllipses (part 0 parts) then
    match parser (part 1 parts) with
    | None => None
    | Some (_, Some err) => Some (patterns, Some err)
    | Some (seq, None) =>
        let patterns := (patterns ++ [mkPattern "" (part 2 parts) seq])%list in
        let parts' := FindStringSubmatch regexpEllipses (part 0 parts) in
        if Nat.ltb 0 (List.length parts')
        then peel' fuel (tl parts') patterns
        else finish arg parser parts' patterns
    end
  else finish arg parser parts patterns.
Proof. reflexivity. Qed.

(** The loop takes the resolved spans off the right end of the text one
    round at a time, and appends their patterns right to left. *)
Lemma peel_items (base : string) (k : nat) :
  allBytes isAny base = true -> search base <> None ->
  forall (ritems : list (span * list string)) (acc : list Pattern),
    Forall (resolvesWith parser) ritems ->
    peel' (List.length ritems + k)
          (tl (FindStringSubmatch regexpEllipses
                 (base ++ render (rev (map fst ritems))))) acc =
    peel' k (tl (FindStringSubmatch regexpEllipses base))
          (acc ++ map innerPattern ritems)%list.
Proof.
  intros Hb Hs ritems. induction ritems as [|it rest IH]; intros acc Hres.
  - simpl. now rewrite sapp_nil_r, app_nil_r.
  - pose proof (Forall_inv Hres) as [Hwf Hparse].
    pose proof (Forall_inv_tail Hres) as Hrest.
    pose proof (resolved_wellFormed _ _ Hrest) as Hwfs.
    apply Forall_rev in Hwfs.
    cbn [map rev]. rewrite render_snoc, <- sapp_assoc.
    set (w := base ++ render (rev (map fst rest))).
    assert (Hw : allBytes isAny w = true).
    { subst w. rewrite allBytes_app, Hb. now apply render_any. }
    assert (Hsw : search w <> None) by now apply search_render.
    rewrite (FindStringSubmatch_last w _ Hw Hwf).
    cbn [tl List.length Nat.add]. rewrite peel_S. cbn [part nth].
    rewrite MatchString_search.
    destruct (search w) as [[[g1 g2] g3]|] eqn:Ew; [|contradiction].
    rewrite Hparse. cbv zeta.
    rewrite FindStringSubmatch_search, Ew.
    cbn [List.length Nat.ltb Nat.leb].
    specialize (IH (acc ++ [innerPattern it])%list Hrest).
    subst w. rewrite FindStringSubmatch_search in IH.
    fold (rev (map fst rest)) in *.
    rewrite Ew in IH. unfold innerPattern at 1 in IH. rewrite IH.
    now rewrite <- app_assoc.
Qed.

End Peeling.

Lemma Count_absent (h : ascii) (s : string) :
  allBytes (notByte h) s = true -> Count s (String h "") = 0%nat.
Proof.
  intros H. unfold Count. destruct (String.length s); [reflexivity|].
  cbn [countLoop]. now rewrite (Index_absent h "" s H).
Qed.

Lemma hasBraces_plain (s : string) :
  allBytes isPlain s = true -> hasBraces s = false.
Proof.
  intros H. unfold hasBraces, openBraces, closeBraces.
  rewrite (Count_absent "{" s), (Count_absent "}" s); [reflexivity | |].
  - exact (allBytes_weaken _ _ s isPlain_notClose H).
  - exact (allBytes_weaken _ _ s isPlain_notBrace H).
Qed.

Lemma leftoverBraces_inner parser (items : list (span * list string)) :
  Forall (resolvesWith parser) items ->
  leftoverBraces (map innerPattern items) = false.
Proof.
  induction 1 as [|it items [Hwf _] _ IH]; [reflexivity|].
  apply wellFormed_parts in Hwf as (_ & _ & Ha).
  unfold leftoverBraces in *. cbn [map existsb]. rewrite IH.
  unfold innerPattern. cbn [Prefix Suffix]. now rewrite (hasBraces_plain _ Ha).
Qed.

(** The extractor on a text that ends with resolved spans: after one round
    per resolved span the loop is at the span before them. *)
Lemma findPatterns_peeled parser (w : string) (sp : span)
  (right : list (span * list string)) :
  allBytes isAny w = true -> wellFormed sp = true ->
  Forall (resolvesWith parser) right ->
  exists k,
    findPatterns (w ++ render (sp :: map fst right)) regexpEllipses parser =
    peel (w ++ render (sp :: map fst right)) regexpEllipses parser (S k)
         [w; spanToken sp; spanAfter sp] (rev (map innerPattern right)).
Proof.
  intros Hw Hsp Hright.
  set (arg := w ++ render (sp :: map fst right)).
  set (base := w ++ spanToken sp ++ spanAfter sp).
  assert (Harg : arg = base ++ render (rev (map fst (rev right)))).
  { subst arg base. rewrite map_rev, rev_involutive. cbn [render].
    now rewrite !sapp_assoc. }
  assert (Hbase : FindStringSubmatch regexpEllipses base =
                  [base; w; spanToken sp; spanAfter sp])
    by now apply FindStringSubmatch_last.
  assert (Hany : allBytes isAny base = true).
  { pose proof (render_any [sp] (Forall_cons _ Hsp (Forall_nil _))) as H.
    cbn [render] in H. rewrite sapp_nil_r in H.
    subst base. now rewrite allBytes_app, Hw. }
  assert (Hsearch : search base <> None).
  { intros E. rewrite FindStringSubmatch_search, E in Hbase. discriminate. }
  assert (Hrev : Forall (resolvesWith parser) (rev right)) by now apply Forall_rev.
  assert (Hlen : (List.length (rev right) <= String.length arg)%nat).
  { rewrite Harg, slength_app.
    pose proof (length_render (rev (map fst (rev right)))) as H.
    rewrite length_rev, length_map in H. lia. }
  exists (String.length arg - List.length (rev right))%nat.
  unfold findPatterns. fold arg.
  assert (Hne : search arg <> None).
  { rewrite Harg. apply search_render; try assumption.
    apply Forall_rev. now apply (resolved_wellFormed parser). }
  rewrite FindStringSubmatch_search at 1.
  destruct (search arg) as [[[g1 g2] g3]|] eqn:Earg; [|contradiction].
  cbn [List.length Nat.eqb].
  replace (S (String.length arg))
    with (List.length (rev right)
          + S (String.length arg - List.length (rev right)))%nat by lia.
  assert (Htl : tl (FindStringSubmatch regexpEllipses arg) =
                tl (FindStringSubmatch regexpEllipses
                      (base ++ render (rev (map fst (rev right))))))
    by now rewrite <- Harg.
  rewrite Htl.
  rewrite (peel_items arg parser base _ Hany Hsearch (rev right) [] Hrev).
  rewrite Hbase. cbn [tl app]. now rewrite map_rev.
Qed.





Section Failures.

Variable arg : string.
Variable parser : string -> option (list string * option error).





End Failures.

(** The loop of the extractor never uses up its own fuel: the extractor
    returns whenever the parser does. *)
Lemma finish_total (arg : string) parser (parts : list string) (acc : list Pattern) :
  (forall tok, parser tok <> None) -> finish arg parser parts acc <> None.
Proof.
  intros Hp. unfold finish. destruct (Nat.ltb 0 (List.length parts)).
  - specialize (Hp (part 1 parts)).
    destruct (parser (part 1 parts)) as [[seq [err|]]|];
      [discriminate | | contradiction].
    destruct (leftoverBraces _); discriminate.
  - destruct (leftoverBraces acc); discriminate.
Qed.

Lemma peel_total (arg : string) parser (fuel : nat) (parts : list string)
  (acc : list Pattern) :
  (forall tok, parser tok <> None) ->
  (String.length (part 0 parts) < fuel)%nat ->
  peel arg regexpEllipses parser fuel parts acc <> None.
Proof.
  intros Hp. revert parts acc.
  induction fuel as [|fuel IH]; intros parts acc Hlen; [lia|].
  rewrite peel_S. destruct (MatchString regexpEllipses (part 0 parts));
    [|now apply finish_total].
  pose proof (Hp (part 1 parts)) as Hp1.
  destruct (parser (part 1 parts)) as [[seq [err|]]|];
    [discriminate | | contradiction].
  cbv zeta. rewrite FindStringSubmatch_search.
  destruct (search (part 0 parts)) as [[[g1 g2] g3]|] eqn:E.
  - cbn [List.length Nat.ltb Nat.leb tl]. apply IH. cbn [part nth].
    destruct (search_shape _ _ _ _ E) as [_ Hg1]. lia.
  - cbn [List.length Nat.ltb Nat.leb]. now apply finish_total.
Qed.

Lemma findPatterns_total (arg : string) parser :
  (forall tok, parser tok <> None) ->
  findPatterns arg regexpEllipses parser <> None.
Proof.
  intros Hp. unfold findPatterns. rewrite FindStringSubmatch_search.
  destruct (search arg) as [[[g1 g2] g3]|] eqn:E.
  - cbn [List.length Nat.eqb tl]. apply peel_total; [exact Hp|].
    cbn [part nth]. destruct (search_shape _ _ _ _ E) as [_ Hg1]. lia.
  - cbn [List.length Nat.eqb]. discriminate.
Qed.

(** ** Successful extractions *)

Lemma Index_none_absent (h : ascii) (s : string) :
  Index s (String h "") = None -> allBytes (notByte h) s = true.
Proof.
  induction s as [|c s IH]; [reflexivity|].
  cbn [Index]. unfold HasPrefix. cbn [CutPrefix allBytes]. unfold notByte at 1.
  destruct (Ascii.eqb c h).
  - destruct s; discriminate.
  - destruct (Index s (String h "")); [discriminate|]. intros _. now apply IH.
Qed.

Lemma Count_zero_absent (h : ascii) (s : string) :
  Count s (String h "") = 0%nat -> allBytes (notByte h) s = true.
Proof.
  unfold Count. destruct s as [|c s]; [reflexivity|].
  cbn [String.length countLoop].
  destruct (Index (String c s) (String h "")) eqn:E; [discriminate|].
  intros _. now apply Index_none_absent.
Qed.

Lemma plain_without_braces (s : string) :
  allBytes isAny s = true -> hasBraces s = false -> allBytes isPlain s = true.
Proof.
  intros Hany Hb. unfold hasBraces, openBraces, closeBraces in Hb.
  apply orb_false_iff in Hb as [Ho Hc].
  apply Nat.ltb_ge in Ho, Hc.
  assert (Hopen : allBytes (notByte "{") s = true)
    by (apply Count_zero_absent; lia).
  assert (Hclose : allBytes (notByte "}") s = true)
    by (apply Count_zero_absent; lia).
  clear Ho Hc. induction s as [|c s IH]; [reflexivity|].
  cbn [allBytes] in *.
  apply andb_true_iff in Hany as [Hc1 Hs1].
  apply andb_true_iff in Hopen as [Hc2 Hs2].
  apply andb_true_iff in Hclose as [Hc3 Hs3].
  unfold isPlain at 1. now rewrite Hc1, Hc2, Hc3, IH.
Qed.

(** On a text without newline the match covers the whole text. *)
Lemma matchAt_any (s g1 g2 g3 : string) :
  allBytes isAny s = true ->
  matchAt s = Some (g1, g2, g3) -> s = g1 ++ g2 ++ g3.
Proof.
  revert g1. induction s as [|c s IH]; intros g1 Hany.
  - cbn [matchAt matchSpan]. discriminate.
  - assert (Hhere : match matchSpan (String c s) with
                    | Some (sp, rest) => Some ("", sp, fst (star isAny rest))
                    | None => None
                    end = Some (g1, g2, g3) ->
                    String c s = g1 ++ g2 ++ g3).
    { destruct (matchSpan (String c s)) as [[sp rest]|] eqn:E; [|discriminate].
      intros H. injection H as <- <- <-.
      destruct (matchSpan_shape _ _ _ E) as (l & r & _ & _ & _ & Hs).
      rewrite Hs in Hany. rewrite allBytes_app in Hany.
      apply andb_true_iff in Hany as [_ Hrest].
      rewrite <- (sapp_nil_r rest) at 1.
      rewrite (star_app isAny rest "" Hrest eq_refl). exact Hs. }
    cbn [matchAt]. cbn [allBytes] in Hany.
    apply andb_true_iff in Hany as [Hc Hs]. rewrite Hc.
    destruct (matchAt s) as [[[h1 h2] h3]|] eqn:E; [|exact Hhere].
    intros H. injection H as <- <- <-. simpl. now rewrite <- (IH _ Hs eq_refl).
Qed.

Lemma search_any_none (s : string) :
  allBytes isAny s = true -> matchAt s = None -> search s = None.
Proof.
  induction s as [|c s IH]; intros Hany Hm; cbn [search]; rewrite Hm.
  - reflexivity.
  - cbn [allBytes] in Hany. apply andb_true_iff in Hany as [Hc Hs].
    apply IH; [exact Hs|]. cbn [matchAt] in Hm. rewrite Hc in Hm.
    destruct (matchAt s) as [[[h1 h2] h3]|]; [discriminate | reflexivity].
Qed.

Lemma search_any (s g1 g2 g3 : string) :
  allBytes isAny s = true ->
  search s = Some (g1, g2, g3) -> s = g1 ++ g2 ++ g3.
Proof.
  intros Hany Hs. destruct (matchAt s) as [m|] eqn:E.
  - apply matchAt_any; [exact Hany|].
    destruct s; cbn [search] in Hs; rewrite E in Hs; now rewrite <- Hs.
  - rewrite (search_any_none _ Hany E) in Hs. discriminate.
Qed.

Lemma leftoverBraces_app (a b : list Pattern) :
  leftoverBraces (a ++ b) = leftoverBraces a || leftoverBraces b.
Proof. apply existsb_app. Qed.

(** A successful run of the loop: the text it started from is plain text
    followed by resolved spans, and the patterns it appended are those of
    the spans from right to left. *)
Lemma peel_success (arg : string) parser (fuel : nat) :
  forall (w l r after : string) (acc ps : list Pattern),
    allBytes isAny w = true -> allBytes isAny after = true ->
    allBytes isClass l = true -> allBytes isClass r = true ->
    peel arg regexpEllipses parser fuel [w; token l r; after] acc
    = Some (ps, None) ->
    leftoverBraces ps = false
    /\ exists pre first rest,
         w ++ token l r ++ after = pre ++ render (map fst (first :: rest))
         /\ allBytes isPlain pre = true
         /\ Forall (resolvesWith parser) (first :: rest)
         /\ ps = (acc ++ rev (mkPattern pre (spanAfter (fst first)) (snd first)
                              :: map innerPattern rest))%list.
Proof.
  induction fuel as [|fuel IH]; intros w l r after acc ps Hw Ha Hl Hr;
    [discriminate|].
  rewrite peel_S. cbn [part nth]. rewrite MatchString_search.
  destruct (search w) as [[[g1 g2] g3]|] eqn:Ew.
  - destruct (parser (token l r)) as [[seq [err|]]|] eqn:Ep; try discriminate.
    cbv zeta. rewrite FindStringSubmatch_search, Ew.
    cbn [List.length Nat.ltb Nat.leb tl]. intros H.
    destruct (search_shape _ _ _ _ Ew) as [(l' & r' & -> & Hl' & Hr') _].
    pose proof (search_any _ _ _ _ Hw Ew) as Hwsplit.
    assert (Hg : allBytes isAny g1 = true /\ allBytes isAny g3 = true).
    { rewrite Hwsplit, !allBytes_app in Hw.
      apply andb_true_iff in Hw as [H1 Hw].
      apply andb_true_iff in Hw as [_ H3]. auto. }
    destruct Hg as [Hg1 Hg3].
    destruct (IH _ _ _ _ _ _ Hg1 Hg3 Hl' Hr' H)
      as (Hleft & pre & first & rest & Hdoc & Hpre & Hres & ->).
    split; [exact Hleft|].
    set (n := (mkSpan l r after, seq)).
    assert (Hn : resolvesWith parser n).
    { split; [|exact Ep]. unfold wellFormed. cbn [fst n spanLo spanHi spanAfter].
      rewrite Hl, Hr. cbn [andb]. apply plain_without_braces; [exact Ha|].
      rewrite !leftoverBraces_app in Hleft.
      apply orb_false_iff in Hleft as [Hleft _].
      apply orb_false_iff in Hleft as [_ Hleft].
      unfold leftoverBraces in Hleft. cbn [existsb Prefix Suffix] in Hleft.
      rewrite orb_false_r in Hleft. now apply orb_false_iff in Hleft as [_ Hleft]. }
    exists pre, first, (rest ++ [n])%list. repeat split.
    + rewrite Hwsplit, Hdoc. rewrite sapp_assoc.
      change (map fst (first :: rest ++ [n]))
        with (map fst ((first :: rest) ++ [n])).
      rewrite map_app. cbn [map]. now rewrite render_snoc.
    + exact Hpre.
    + change (first :: rest ++ [n])%list with ((first :: rest) ++ [n])%list.
      apply Forall_app. split; [exact Hres | now constructor].
    + rewrite map_app. cbn [rev map]. rewrite rev_app_distr. cbn [rev app].
      fold n. change (mkPattern "" after seq) with (innerPattern n).
      now rewrite <- !app_assoc.
  - unfold finish. cbn [List.length Nat.ltb Nat.leb part nth].
    destruct (parser (token l r)) as [[seq [err|]]|] eqn:Ep; try discriminate.
    destruct (leftoverBraces _) eqn:Hleft; [discriminate|].
    intros H. injection H as <-. split; [exact Hleft|].
    rewrite leftoverBraces_app in Hleft.
    apply orb_false_iff in Hleft as [_ Hleft].
    unfold leftoverBraces in Hleft. cbn [existsb Prefix Suffix] in Hleft.
    rewrite orb_false_r in Hleft. apply orb_false_iff in Hleft as [Hbw Hba].
    exists w, (mkSpan l r after, seq), []. repeat split.
    + cbn [map fst render]. now rewrite sapp_nil_r.
    + now apply plain_without_braces.
    + constructor; [|constructor]. split; [|exact Ep].
      unfold wellFormed. cbn [fst spanLo spanHi spanAfter].
      rewrite Hl, Hr. now apply plain_without_braces.
Qed.

(** Every single-line input on which the extractor succeeds is plain text
    followed by resolved spans, and the patterns are those of the spans from
    right to left. *)
Lemma FindEllipsesPatterns_success (fuel : nat) (arg : string) (ps : ArgPattern) :
  allBytes isAny arg = true ->
  FindEllipsesPatterns fuel arg = Some (ps, None) ->
  exists pre first rest,
    arg = pre ++ render (map fst (first :: rest))
    /\ allBytes isPlain pre = true
    /\ Forall (resolvesWith (parseEllipsesRange fuel)) (first :: rest)
    /\ ps = rev (mkPattern pre (spanAfter (fst first)) (snd first)
                 :: map innerPattern rest).
Proof.
  intros Hany. unfold FindEllipsesPatterns.
  destruct (findPatterns arg regexpEllipses (parseEllipsesRange fuel))
    as [[v [e|]]|] eqn:E; try discriminate.
  { destruct (isErrFormat e); discriminate. }
  intros H. injection H as <-.
  unfold findPatterns in E. rewrite FindStringSubmatch_search in E.
  destruct (search arg) as [[[g1 g2] g3]|] eqn:Es; [|discriminate E].
  cbn [List.length Nat.eqb tl] in E.
  destruct (search_shape _ _ _ _ Es) as [(l & r & -> & Hl & Hr) _].
  pose proof (search_any _ _ _ _ Hany Es) as Hsplit.
  assert (Hg : allBytes isAny g1 = true /\ allBytes isAny g3 = true).
  { rewrite Hsplit, !allBytes_app in Hany.
    apply andb_true_iff in Hany as [H1 Hany].
    apply andb_true_iff in Hany as [_ H3]. auto. }
  destruct Hg as [Hg1 Hg3].
  destruct (peel_success _ _ _ _ _ _ _ _ _ Hg1 Hg3 Hl Hr E)
    as (_ & pre & first & rest & Hdoc & Hpre & Hres & Hps).
  exists pre, first, rest. rewrite Hsplit. auto.
Qed.

(** ** The claims about the extractor *)



(** C2, as the code has it: for an input made of plain text and spans whose
    tokens all resolve, the patterns come in right-to-left order: the
    rightmost span first, the leftmost span, which alone carries the prefix,
    last.  Every single-line input on which the call succeeds is of this
    form. *)
Theorem FindEllipsesPatterns_order (fuel : nat) :
  (forall pre first rest,
      allBytes isPlain pre = true ->
      Forall (resolvesWith (parseEllipsesRange fuel)) (first :: rest) ->
      FindEllipsesPatterns fuel (pre ++ render (map fst (first :: rest))) =
      Some (rev (mkPattern pre (spanAfter (fst first)) (snd first)
                 :: map innerPattern rest), None))
  /\ (forall arg ps,
        allBytes isAny arg = true ->
        FindEllipsesPatterns fuel arg = Some (ps, None) ->
        exists pre first rest,
          arg = pre ++ render (map fst (first :: rest))
          /\ allBytes isPlain pre = true
          /\ Forall (resolvesWith (parseEllipsesRange fuel)) (first :: rest)
          /\ ps = rev (mkPattern pre (spanAfter (fst first)) (snd first)
                       :: map innerPattern rest)).
Proof.
  split; [|intros arg ps; apply FindEllipsesPatterns_success].
  intros pre first rest Hpre Hall.
  pose proof (Forall_inv Hall) as [Hwf Hparse].
  pose proof (Forall_inv_tail Hall) as Hrest.
  assert (Hw : allBytes isAny pre = true)
    by exact (allBytes_weaken _ _ pre isPlain_isAny Hpre).
  destruct (findPatterns_peeled _ pre (fst first) rest Hw Hwf Hrest) as [k Hk].
  unfold FindEllipsesPatterns. cbn [map]. rewrite Hk, peel_S. cbn [part nth].
  rewrite MatchString_search, search_absent
    by exact (allBytes_weaken _ _ pre isPlain_notBrace Hpre).
  unfold finish. cbn [List.length Nat.ltb Nat.leb part nth].
  rewrite Hparse.
  replace (leftoverBraces _) with false; [reflexivity|].
  symmetry. rewrite leftoverBraces_app.
  apply orb_false_iff. split.
  - rewrite <- map_rev. apply (leftoverBraces_inner (parseEllipsesRange fuel)).
    now apply Forall_rev.
  - apply wellFormed_parts in Hwf as (_ & _ & Ha).
    unfold leftoverBraces. cbn [existsb Prefix Suffix].
    now rewrite (hasBraces_plain _ Hpre), (hasBraces_plain _ Ha).
Qed.

Lemma FindEllipsesPatterns_order_witness :
  FindEllipsesPatterns 3 "pool{1...2}-disk{3...4}" =
  Some ([mkPattern "" "" ["3"; "4"]; mkPattern "pool" "-disk" ["1"; "2"]], None).
Proof.
  refine (proj1 (FindEllipsesPatterns_order 3) "pool"
            (mkSpan "1" "2" "-disk", ["1"; "2"])
            [(mkSpan "3" "4" "", ["3"; "4"])] _ _).
  - reflexivity.
  - repeat constructor.
Defined.

(** C2 fails on [pool{1...2}-disk{3...4}]: whatever the fuel, the labels of
    the leftmost span are not those of the first pattern. *)
Lemma FindEllipsesPatterns_order_counterexample :
  ~ exists fuel ps,
      FindEllipsesPatterns fuel "pool{1...2}-disk{3...4}" = Some (ps, None)
      /\ map Seq ps = [["1"; "2"]; ["3"; "4"]].
Proof.
  intros (fuel & ps & H & Hseq).
  destruct fuel as [|[|[|fuel]]]; vm_compute in H; try discriminate H.
  injection H as <-. discriminate Hseq.
Qed.







(** ** The claims about the expansion *)

(** C9: [pool{1...2}-disk{1...2}] gives two patterns, and their expansion
    is the four pairs of a label of the left span, with its prefix and
    suffix, and a label of the right span. *)
Theorem pool_disk_expansion (fuel : nat) :
  (3 <= fuel)%nat ->
  let patterns :=
    [mkPattern "" "" ["1"; "2"]; mkPattern "pool" "-disk" ["1"; "2"]] in
  FindEllipsesPatterns fuel "pool{1...2}-disk{1...2}" = Some (patterns, None)
  /\ List.length patterns = 2%nat
  /\ ArgPattern_Expand patterns =
     Some [["pool1-disk"; "1"]; ["pool2-disk"; "1"];
           ["pool1-disk"; "2"]; ["pool2-disk"; "2"]].
Proof.
  intros H. destruct fuel as [|[|[|fuel]]]; try lia.
  repeat split; vm_compute; reflexivity.
Qed.

Lemma pool_disk_expansion_witness :
  FindEllipsesPatterns 3 "pool{1...2}-disk{1...2}" =
  Some ([mkPattern "" "" ["1"; "2"]; mkPattern "pool" "-disk" ["1"; "2"]], None).
Proof.
  exact (proj1 (pool_disk_expansion 3 (le_n 3))).
Defined.

Lemma argExpander_two (l0 l1 : list string) (rest : list (list string)) :
  argExpander (l0 :: l1 :: rest) =
  fold_left
    (fun out lbl =>
       match out with
       | None => None
       | Some out =>
           match argExpander (l1 :: rest) with
           | None => None
           | Some rs => Some (out ++ map (fun rlbls => rlbls ++ [lbl]) rs)%list
           end
       end)
    l0 (Some []).
Proof. reflexivity. Qed.

(** On a non-empty list of label lists [argExpander] returns, and every
    tuple has one label per list. *)
Lemma argExpander_some (l0 : list string) (rest : list (list string)) :
  exists out,
    argExpander (l0 :: rest) = Some out
    /\ Forall (fun t => List.length t = S (List.length rest)) out.
Proof.
  revert l0. induction rest as [|l1 rest IH]; intros l0.
  - exists (map (fun v => [v]) l0). split; [reflexivity|].
    apply Forall_map. apply Forall_forall. reflexivity.
  - rewrite argExpander_two. destruct (IH l1) as (rs & -> & Hrs).
    assert (Hfold : forall acc,
               Forall (fun t => List.length t = S (List.length (l1 :: rest))) acc ->
               exists out,
                 fold_left
                   (fun out lbl =>
                      match out with
                      | None => None
                      | Some out =>
                          Some (out ++ map (fun rlbls => rlbls ++ [lbl]) rs)%list
                      end) l0 (Some acc) = Some out
                 /\ Forall (fun t => List.length t = S (List.length (l1 :: rest))) out).
    { induction l0 as [|lbl l0 IH0]; intros acc Hacc.
      - exists acc. split; [reflexivity | exact Hacc].
      - cbn [fold_left]. apply IH0. apply Forall_app. split; [exact Hacc|].
        apply Forall_map. revert Hrs. apply Forall_impl.
        intros t Ht. rewrite length_app, Ht. simpl. lia. }
    apply Hfold. constructor.
Qed.

(** C10: on an [ArgPattern] without patterns [Expand] indexes an empty list
    and panics; on every other one it returns a list of tuples, each with
    one label per pattern. *)
Theorem ArgPattern_Expand_defined :
  ArgPattern_Expand [] = None
  /\ forall (p : Pattern) (a : ArgPattern),
       exists out,
         ArgPattern_Expand (p :: a) = Some out
         /\ Forall (fun t => List.length t = List.length (p :: a)) out.
Proof.
  split; [reflexivity|]. intros p a. unfold ArgPattern_Expand. cbn [map].
  destruct (argExpander_some (Pattern_Expand p) (map Pattern_Expand a))
    as (out & -> & Hout).
  exists out. split; [reflexivity|]. now rewrite length_map in Hout.
Qed.

(** ** Wildcard patterns *)

Lemma deepMatchRune_nil (str : string) (simple : bool) :
  Wildcard.deepMatchRune str "" simple = Wildcard.isEmpty str.
Proof. simpl. apply andb_true_r. Qed.

Lemma deepMatchRune_star (str p : string) (simple : bool) :
  Wildcard.deepMatchRune str (String "*" p) simple =
  Wildcard.isEmpty p
  || Wildcard.deepMatchRune str p simple
  || match str with
     | EmptyString => false
     | String _ str' => Wildcard.deepMatchRune str' (String "*" p) simple
     end.
Proof. destruct str; reflexivity. Qed.

Lemma deepMatchRune_byte (c : ascii) (str p : string) (simple : bool) :
  c <> "?"%char -> c <> "*"%char ->
  Wildcard.deepMatchRune str (String c p) simple =
  match str with
  | EmptyString => false
  | String x str' =>
      if Ascii.eqb x c then Wildcard.deepMatchRune str' p simple else false
  end.
Proof.
  intros Hq Hs. cbn [Wildcard.deepMatchRune].
  destruct (Ascii.eqb_spec c "?"); [contradiction|].
  destruct (Ascii.eqb_spec c "*"); [contradiction|]. reflexivity.
Qed.

Lemma isEmpty_true (s : string) : Wildcard.isEmpty s = true -> s = "".
Proof. destruct s; [reflexivity | discriminate]. Qed.

Lemma glob_star_inv (simple : bool) (p s : string) :
  glob simple (String "*" p) s -> exists s1 s2, s = s1 ++ s2 /\ glob simple p s2.
Proof.
  intros H. inversion H; subst.
  - eauto.
  - contradiction.
Qed.

Lemma deepMatchRune_sound (simple : bool) (pattern str : string) :
  Wildcard.deepMatchRune str pattern simple = true -> glob simple pattern str.
Proof.
  revert str. induction pattern as [|c p IH]; intros str.
  - rewrite deepMatchRune_nil. intros H. apply isEmpty_true in H as ->.
    constructor.
  - destruct (Ascii.eqb_spec c "?") as [-> | Hq].
    + cbn [Wildcard.deepMatchRune Ascii.eqb Bool.eqb andb].
      destruct str as [|x str]; intros H.
      * now apply glob_short.
      * apply glob_one. now apply IH.
    + destruct (Ascii.eqb_spec c "*") as [-> | Hs].
      * induction str as [|x str IHstr]; rewrite deepMatchRune_star; intros H;
          apply orb_true_iff in H as [H | H];
          try apply orb_true_iff in H as [H | H]; try discriminate H.
        -- apply isEmpty_true in H as ->. apply (glob_star simple "" "" "").
           constructor.
        -- apply (glob_star simple p "" ""). now apply IH.
        -- apply isEmpty_true in H as ->.
           rewrite <- (sapp_nil_r (String x str)).
           apply glob_star. constructor.
        -- apply (glob_star simple p "" (String x str)). now apply IH.
        -- destruct (glob_star_inv _ _ _ (IHstr H)) as (s1 & s2 & -> & Hg).
           apply (glob_star simple p (String x s1) s2 Hg).
      * rewrite deepMatchRune_byte by assumption.
        destruct str as [|x str]; [discriminate|].
        destruct (Ascii.eqb_spec x c) as [-> | _]; [|discriminate].
        intros H. apply glob_byte; auto.
Qed.

Lemma deepMatchRune_complete (simple : bool) (pattern str : string) :
  glob simple pattern str -> Wildcard.deepMatchRune str pattern simple = true.
Proof.
  induction 1 as [|p s c _ IH|p Hs|p s1 s2 _ IH|c p s Hq Hs _ IH].
  - reflexivity.
  - exact IH.
  - exact Hs.
  - induction s1 as [|x s1 IH1].
    + change ("" ++ s2) with s2. rewrite deepMatchRune_star, IH.
      now rewrite orb_true_r.
    + change (String x s1 ++ s2) with (String x (s1 ++ s2)).
      rewrite deepMatchRune_star, IH1. now rewrite orb_true_r.
  - rewrite deepMatchRune_byte by assumption. now rewrite Ascii.eqb_refl.
Qed.

Lemma glob_empty_pattern (simple : bool) (name : string) :
  glob simple "" name <-> name = "".
Proof.
  split; [intros H; now inversion H | intros ->; constructor].
Qed.

Lemma glob_lone_star (simple : bool) (name : string) : glob simple "*" name.
Proof.
  rewrite <- (sapp_nil_r name). apply glob_star. constructor.
Qed.

(** The two early returns of [Match] and [MatchSimple] are what the loop
    returns on these patterns. *)
Lemma Match_deep (pattern name : string) :
  Wildcard.Match pattern name = Wildcard.deepMatchRune name pattern false.
Proof.
  unfold Wildcard.Match.
  destruct (String.eqb_spec pattern "") as [-> | _].
  - rewrite deepMatchRune_nil. now destruct name.
  - destruct (String.eqb_spec pattern "*") as [-> | _]; [|reflexivity].
    now rewrite deepMatchRune_star.
Qed.

Lemma MatchSimple_deep (pattern name : string) :
  Wildcard.MatchSimple pattern name = Wildcard.deepMatchRune name pattern true.
Proof.
  unfold Wildcard.MatchSimple.
  destruct (String.eqb_spec pattern "") as [-> | _].
  - rewrite deepMatchRune_nil. now destruct name.
  - destruct (String.eqb_spec pattern "*") as [-> | _]; [|reflexivity].
    now rewrite deepMatchRune_star.
Qed.

Lemma glob_weaken (pattern name : string) :
  glob false pattern name -> glob true pattern name.
Proof.
  induction 1; try discriminate; constructor; assumption.
Qed.

(** A pattern without [*] and [?] matches itself only. *)
Lemma glob_literal (simple : bool) (pattern name : string) :
  allBytes (notByte "*") pattern = true ->
  allBytes (notByte "?") pattern = true ->
  glob simple pattern name <-> name = pattern.
Proof.
  revert name. induction pattern as [|c p IH]; intros name Hs Hq.
  - apply glob_empty_pattern.
  - cbn [allBytes] in Hs, Hq.
    apply andb_true_iff in Hs as [Hcs Hs]. apply andb_true_iff in Hq as [Hcq Hq].
    unfold notByte in Hcs, Hcq.
    destruct (Ascii.eqb_spec c "*") as [|Ncs]; [discriminate|].
    destruct (Ascii.eqb_spec c "?") as [|Ncq]; [discriminate|].
    split.
    + intros H. inversion H; subst; try contradiction.
      f_equal. now apply (IH s).
    + intros ->. apply glob_byte; try assumption. now apply IH.
Qed.

Lemma Has_false (pattern : string) :
  Wildcard.Has pattern = false ->
  allBytes (notByte "*") pattern = true /\ allBytes (notByte "?") pattern = true.
Proof.
  unfold Wildcard.Has, Contains. intros H.
  apply orb_false_iff in H as [Hs Hq].
  split; apply Index_none_absent.
  - now destruct (Index pattern "*").
  - now destruct (Index pattern "?").
Qed.

Lemma Match_literal (pattern name : string) :
  Wildcard.Has pattern = false ->
  Wildcard.Match pattern name = true <-> name = pattern.
Proof.
  intros H. destruct (Has_false _ H) as [Hs Hq].
  rewrite Match_deep, <- (glob_literal false pattern name Hs Hq).
  split; [apply deepMatchRune_sound | apply deepMatchRune_complete].
Qed.

(** The pattern without its stars is a name the pattern matches. *)
Lemma glob_starless (pattern : string) : glob false pattern (starless pattern).
Proof.
  induction pattern as [|c p IH]; cbn [starless]; [constructor|].
  destruct (Ascii.eqb_spec c "*") as [-> | Ns].
  - apply (glob_star false p "" (starless p) IH).
  - destruct (Ascii.eqb_spec c "?") as [-> | Nq].
    + now apply glob_one.
    + now apply glob_byte.
Qed.

Lemma get_app_length (a b : string) (c : ascii) :
  String.get (String.length a) (a ++ String c b) = Some c.
Proof. induction a as [|x a IH]; [reflexivity | exact IH]. Qed.

(** The index loop of [MatchAsPatternPrefix] is a walk along both strings. *)
Lemma prefixLoop_walk (fuel : nat) :
  forall pp pt p t : string,
    String.length pp = String.length pt ->
    (String.length t < fuel)%nat ->
    Wildcard.prefixLoop fuel (String.length pp) (pp ++ p) (pt ++ t)
    = prefixWalk p t.
Proof.
  induction fuel as [|fuel IH]; intros pp pt p t Hlen Hfuel; [lia|].
  cbn [Wildcard.prefixLoop]. rewrite !slength_app, <- Hlen.
  destruct t as [|tc t].
  - replace (String.length pp <? String.length pp + String.length "")%nat
      with false by (symmetry; apply Nat.ltb_ge; simpl; lia).
    cbn [andb]. transitivity true.
    + apply Nat.leb_le. simpl. lia.
    + destruct p; reflexivity.
  - destruct p as [|pc p].
    + replace (String.length pp <? String.length pp + String.length "")%nat
        with false by (symmetry; apply Nat.ltb_ge; simpl; lia).
      rewrite andb_false_r. cbn [prefixWalk].
      apply Nat.leb_gt. simpl. lia.
    + replace (String.length pp <? String.length pp + String.length (String tc t))%nat
        with true by (symmetry; apply Nat.ltb_lt; simpl; lia).
      replace (String.length pp <? String.length pp + String.length (String pc p))%nat
        with true by (symmetry; apply Nat.ltb_lt; simpl; lia).
      cbn [andb]. rewrite get_app_length, Hlen, get_app_length.
      cbn [prefixWalk].
      assert (Hnext : Wildcard.prefixLoop fuel (S (String.length pp))
                        (pp ++ String pc p) (pt ++ String tc t)
                      = prefixWalk p t).
      { specialize (IH (pp ++ String pc "") (pt ++ String tc "") p t).
        rewrite !slength_app, !sapp_assoc in IH. cbn [String.length append] in IH.
        rewrite Nat.add_1_r in IH. apply IH; [lia | simpl in Hfuel; lia]. }
      rewrite <- Hlen, Hnext.
      destruct (Ascii.eqb pc "*"); [reflexivity|].
      destruct (Ascii.eqb pc "?"); [reflexivity|].
      now destruct (Ascii.eqb pc tc).
Qed.

Lemma MatchAsPatternPrefix_walk (pattern text : string) :
  Wildcard.MatchAsPatternPrefix pattern text = prefixWalk pattern text.
Proof.
  unfold Wildcard.MatchAsPatternPrefix.
  apply (prefixLoop_walk (S (String.length text)) "" "" pattern text);
    [reflexivity | lia].
Qed.

Lemma prefixWalk_empty_text (pattern : string) : prefixWalk pattern "" = true.
Proof. destruct pattern; reflexivity. Qed.

(** A text the walk accepts is the beginning of a name the pattern matches. *)
Lemma prefixWalk_extends (pattern text : string) :
  prefixWalk pattern text = true ->
  exists name, isPrefixOf text name /\ glob false pattern name.
Proof.
  revert text. induction pattern as [|c p IH]; intros text.
  - destruct text; [|discriminate]. intros _. exists "". split.
    + now exists "".
    + constructor.
  - destruct text as [|x text].
    + intros _. exists (starless (String c p)). split.
      * now exists (starless (String c p)).
      * apply glob_starless.
    + cbn [prefixWalk]. destruct (Ascii.eqb_spec c "*") as [-> | Ns].
      * intros _. exists (String x text ++ starless p). split.
        -- now exists (starless p).
        -- apply glob_star. apply glob_starless.
      * destruct (Ascii.eqb_spec c "?") as [-> | Nq].
        -- cbn [orb]. intros H. destruct (IH _ H) as (name & [rest ->] & Hg).
           exists (String x (text ++ rest)). split.
           ++ now exists rest.
           ++ now apply glob_one.
        -- cbn [orb]. destruct (Ascii.eqb_spec c x) as [<- | _]; [|discriminate].
           intros H. destruct (IH _ H) as (name & [rest ->] & Hg).
           exists (String c (text ++ rest)). split.
           ++ now exists rest.
           ++ now apply glob_byte.
Qed.

(** The walk accepts every beginning of a name the pattern matches. *)
Lemma prefixWalk_prefix (pattern name : string) :
  glob false pattern name ->
  forall text, isPrefixOf text name -> prefixWalk pattern text = true.
Proof.
  induction 1 as [|p s c _ IH|p Hs|p s1 s2 _ IH|c p s Hq Hs _ IH];
    intros text [rest Hrest].
  - destruct text; [reflexivity | discriminate].
  - destruct text as [|x text]; [reflexivity|].
    injection Hrest as <- ->. cbn [prefixWalk Ascii.eqb Bool.eqb andb orb].
    apply IH. now exists rest.
  - discriminate.
  - destruct text; reflexivity.
  - destruct text as [|x text]; [reflexivity|].
    injection Hrest as <- ->. cbn [prefixWalk].
    destruct (Ascii.eqb_spec c "*"); [contradiction|].
    destruct (Ascii.eqb_spec c "?"); [contradiction|].
    rewrite Ascii.eqb_refl. cbn [orb]. apply IH. now exists rest.
Qed.

(** ** Labels read back *)

Lemma digitOf_digitChar (d : Z) :
  0 <= d < 16 -> digitOf (digitChar d) = Some d.
Proof.
  intros H.
  assert (Hd : d = 0 \/ d = 1 \/ d = 2 \/ d = 3 \/ d = 4 \/ d = 5 \/ d = 6
               \/ d = 7 \/ d = 8 \/ d = 9 \/ d = 10 \/ d = 11 \/ d = 12
               \/ d = 13 \/ d = 14 \/ d = 15) by lia.
  repeat (destruct Hd as [-> | Hd]; [reflexivity|]). subst d. reflexivity.
Qed.

Lemma wrap64_small (x : Z) : 0 <= x <= maxUint64 -> wrap64 x = x.
Proof.
  intros H. unfold wrap64. apply Z.mod_small. unfold maxUint64 in H. lia.
Qed.

(** One round of the loop of [ParseUint] on a digit that fits. *)
Lemma parseLoop_digit (base : Z) (d n : Z) (s : string) :
  base = 10 \/ base = 16 ->
  0 <= d < base -> 0 <= n -> n * base + d <= maxUint64 ->
  parseLoop base (maxUint64 / base + 1) (String (digitChar d) s) n
  = parseLoop base (maxUint64 / base + 1) s (n * base + d).
Proof.
  intros Hb Hd Hn Hfit. cbn [parseLoop].
  rewrite digitOf_digitChar by (destruct Hb; subst; lia).
  replace (base <=? d) with false by (symmetry; apply Z.leb_gt; lia).
  assert (Hcut : n < maxUint64 / base + 1).
  { assert (n <= maxUint64 / base); [|lia].
    apply Z.div_le_lower_bound; [destruct Hb; subst; lia | nia]. }
  replace (maxUint64 / base + 1 <=? n) with false
    by (symmetry; apply Z.leb_gt; exact Hcut).
  assert (Hnb : 0 <= n * base <= maxUint64) by (destruct Hb; subst; lia).
  rewrite (wrap64_small (n * base) Hnb).
  rewrite (wrap64_small (n * base + d)) by lia.
  replace (n * base + d <? n * base) with false
    by (symmetry; apply Z.ltb_ge; lia).
  replace (maxUint64 <? n * base + d) with false
    by (symmetry; apply Z.ltb_ge; lia).
  reflexivity.
Qed.

(** Reading the digits [fmtInteger] writes gives the number back. *)
Lemma parseLoop_fmtDigits (base : Z) (fuel : nat) :
  base = 10 \/ base = 16 ->
  forall (u : Z) (buf : string),
    0 <= u <= maxUint64 -> u < base ^ Z.of_nat fuel ->
    parseLoop base (maxUint64 / base + 1) (fmtDigits fuel base u buf) 0
    = parseLoop base (maxUint64 / base + 1) buf u.
Proof.
  intros Hb. assert (Hbase : 1 < base) by (destruct Hb; subst; lia).
  induction fuel as [|fuel IH]; intros u buf Hu Hpow.
  - simpl in Hpow. replace u with 0 by lia. reflexivity.
  - cbn [fmtDigits]. destruct (base <=? u) eqn:E.
    + apply Z.leb_le in E.
      pose proof (Z.div_mod u base ltac:(lia)) as Hdm.
      pose proof (Z.mod_pos_bound u base ltac:(lia)) as Hmod.
      assert (Hq : 0 <= u / base) by (apply Z.div_pos; lia).
      rewrite IH.
      * rewrite parseLoop_digit; try assumption; [|lia].
        f_equal. lia.
      * split; [exact Hq|]. nia.
      * rewrite Nat2Z.inj_succ, Z.pow_succ_r in Hpow by lia.
        apply Z.div_lt_upper_bound; lia.
    + apply Z.leb_gt in E.
      rewrite (parseLoop_digit base u 0 buf Hb) by lia.
      f_equal.
Qed.

Lemma parseLoop_zeros (base : Z) (k : nat) (s : string) :
  base = 10 \/ base = 16 ->
  parseLoop base (maxUint64 / base + 1) (zeros k ++ s) 0
  = parseLoop base (maxUint64 / base + 1) s 0.
Proof.
  intros Hb. induction k as [|k IH]; [reflexivity|].
  cbn [zeros append].
  rewrite (parseLoop_digit base 0 0 _ Hb); [exact IH | | |];
    destruct Hb; subst; unfold maxUint64; lia.
Qed.

Lemma fmtDigits_nonempty (base : Z) (fuel : nat) (u : Z) (buf : string) :
  (0 < fuel)%nat \/ buf <> "" -> fmtDigits fuel base u buf <> "".
Proof.
  revert u buf. induction fuel as [|fuel IH]; intros u buf H.
  - destruct H as [H | H]; [lia | exact H].
  - cbn [fmtDigits]. destruct (base <=? u); [|discriminate].
    apply IH. right. discriminate.
Qed.

Lemma ParseUint_padded (base : Z) (k : nat) (u : Z) :
  base = 10 \/ base = 16 -> 0 <= u <= maxUint64 ->
  ParseUint (padZero k (fmtInteger base u)) base = inl u
  /\ ParseUint (fmtInteger base u) base = inl u.
Proof.
  intros Hb Hu.
  assert (Hpow : u < base ^ Z.of_nat 64).
  { assert (maxUint64 < base ^ Z.of_nat 64)
      by (destruct Hb; subst; reflexivity). lia. }
  assert (Hne : fmtInteger base u <> "")
    by (apply fmtDigits_nonempty; left; lia).
  assert (Hloop : forall n,
             parseLoop base (maxUint64 / base + 1)
               (zeros n ++ fmtInteger base u) 0 = inl u).
  { intros n. rewrite (parseLoop_zeros base n _ Hb). unfold fmtInteger.
    now rewrite (parseLoop_fmtDigits base 64 Hb u "" Hu Hpow). }
  split.
  - unfold padZero, ParseUint.
    destruct (zeros (k - String.length (fmtInteger base u))
              ++ fmtInteger base u) eqn:E.
    + destruct (zeros _); [simpl in E; contradiction | discriminate E].
    + rewrite <- E. now rewrite Hloop.
  - unfold ParseUint. specialize (Hloop 0%nat). cbn [zeros append] in Hloop.
    destruct (fmtInteger base u) eqn:E; [contradiction|]. now rewrite Hloop.
Qed.

(** A label whose width [fmt] takes reads back as its number. *)
Lemma label_read_back (b : bounds) (i : Z) :
  Z.of_nat (String.length (hi b)) < 10000010 ->
  0 <= i <= maxUint64 ->
  ParseUint (label b i) (if hexadecimal b then 16 else 10) = inl i.
Proof.
  intros Hw Hi. rewrite (label_digits b i Hw). unfold digitsOf.
  assert (Hb : (if hexadecimal b then 16 else 10) = 10
               \/ (if hexadecimal b then 16 else 10) = 16)
    by (destruct (hexadecimal b); auto).
  pose proof (fun k => ParseUint_padded _ k i Hb Hi) as P.
  destruct (padded b); [exact (proj1 (P _)) | exact (proj2 (P 0%nat))].
Qed.

(** A right text of 10,000,010 bytes or more: the boundary still converts
    (here to 1, written after that many zeros less one), the labels are due
    with padding, and each label is the complaint of [fmt] about the width
    instead of the digits. *)
Lemma wide_right_text_label (k : nat) :
  10000009 <= Z.of_nat k < 2 ^ 62 ->
  boundary (zeros k ++ "1") = inl (1, false)
  /\ parseEllipsesRange 2 (token "1" (zeros k ++ "1"))
     = Some (["%!(NOVERB)%!(EXTRA uint64=1)"], None).
Proof.
  intros Hk. set (r := zeros k ++ "1").
  assert (Br : boundary r = inl (1, false)).
  { unfold r, boundary, ParseUint.
    rewrite (parseLoop_zeros 10 k "1" (or_introl eq_refl)).
    destruct k; reflexivity. }
  split; [exact Br|].
  set (b := mkBounds "1" r 1 1 false).
  assert (Hb : rangeBounds (token "1" r) = inl b).
  { rewrite rangeBounds_token; [| reflexivity | exact (boundary_nodot _ _ _ Br)].
    rewrite Br. reflexivity. }
  rewrite (parseEllipsesRange_returns 2 _ b Hb);
    [| cbn [start end_ b]; lia | cbn [start end_ b]; unfold maxUint64; lia
     | cbn [start end_ b]; lia].
  cbn [start end_ b]. change (interval 1 1) with [1]. cbn [map].
  assert (Hlen : String.length r = S k).
  { unfold r. clear. induction k as [|k IH]; [reflexivity|].
    cbn [zeros append String.length]. now rewrite IH. }
  assert (Hpad : padded b = true).
  { unfold padded. cbn [lo hi b]. unfold r.
    destruct k as [|[|k']]; [lia | reflexivity | reflexivity]. }
  unfold label. rewrite Hpad. cbn [hexadecimal hi b]. unfold Sprintf_0d.
  rewrite Sprintf_directive_refused; [reflexivity | rewrite Hlen; lia].
Qed.

Lemma In_upto (i x : Z) (n : nat) :
  In x (upto i n) <-> i <= x < i + Z.of_nat n.
Proof.
  revert i. induction n as [|n IH]; intros i; cbn [upto In].
  - lia.
  - rewrite IH. lia.
Qed.

Lemma NoDup_upto (i : Z) (n : nat) : NoDup (upto i n).
Proof.
  revert i. induction n as [|n IH]; intros i; cbn [upto]; constructor.
  - rewrite In_upto. lia.
  - apply IH.
Qed.

Lemma length_upto (i : Z) (n : nat) : List.length (upto i n) = n.
Proof. revert i. induction n as [|n IH]; intros i; simpl; [|rewrite IH]; reflexivity. Qed.

(** What the resolver returns on a token whose boundaries resolve. *)
Lemma parseEllipsesRange_labels (l r : string) (s e : Z) (hl hr : bool)
  (fuel : nat) (out : list string * option error) :
  boundary l = inl (s, hl) -> boundary r = inl (e, hr) -> s <= e ->
  parseEllipsesRange fuel (token l r) = Some out ->
  out = (map (label (mkBounds l r s e (hl || hr))) (interval s e), None).
Proof.
  intros Bl Br Hse H.
  set (b := mkBounds l r s e (hl || hr)).
  assert (Hb : rangeBounds (token l r) = inl b).
  { rewrite rangeBounds_token, Bl, Br.
    - now replace (e <? s) with false by (symmetry; apply Z.ltb_ge; lia).
    - exact (boundary_nodot _ _ _ Bl).
    - exact (boundary_nodot _ _ _ Br). }
  pose proof (boundary_range _ _ _ Bl) as Rs.
  pose proof (boundary_range _ _ _ Br) as Re.
  destruct (Z.eq_dec e maxUint64) as [Emax | Nmax].
  - rewrite (parseEllipsesRange_forever fuel _ b Hb) in H; [discriminate | |];
      cbn [start end_ b]; [lia | exact Emax].
  - symmetry. eapply parseEllipsesRange_unique; [|exact H].
    apply (parseEllipsesRange_returns (S (Z.to_nat (e - s + 1))) _ b Hb);
      cbn [start end_ b]; lia.
Qed.

(** ** Expansion *)

Lemma Pattern_Expand_concat (p : Pattern) :
  Pattern_Expand p = map (fun s => Prefix p ++ s ++ Suffix p) (Seq p).
Proof.
  unfold Pattern_Expand. apply map_ext. intros s.
  destruct (Prefix p), (Suffix p); cbn [Ellipses.isEmpty negb andb];
    rewrite ?sapp_nil_r; reflexivity.
Qed.

Lemma argExpander_fold (rs : list (list string)) (l0 : list string)
  (acc : list (list string)) :
  fold_left
    (fun out lbl =>
       match out with
       | None => None
       | Some out => Some (out ++ map (fun rlbls => rlbls ++ [lbl]) rs)%list
       end)
    l0 (Some acc)
  = Some (acc ++ flat_map (fun lbl => map (fun r => r ++ [lbl]) rs) l0)%list.
Proof.
  revert acc. induction l0 as [|lbl l0 IH]; intros acc; cbn [fold_left flat_map].
  - now rewrite app_nil_r.
  - rewrite IH. now rewrite <- app_assoc.
Qed.

(** On a non-empty list [argExpander] returns the tuples. *)
Lemma argExpander_tuples (l0 : list string) (rest : list (list string)) :
  argExpander (l0 :: rest) = Some (tuples (l0 :: rest)).
Proof.
  revert l0. induction rest as [|l1 rest IH]; intros l0.
  - reflexivity.
  - rewrite argExpander_two, (IH l1).
    rewrite (argExpander_fold (tuples (l1 :: rest)) l0 []). reflexivity.
Qed.

Lemma product_cons (x : nat) (a : list nat) :
  product (x :: a) = (x * product a)%nat.
Proof. reflexivity. Qed.

Lemma length_tuples (labels : list (list string)) :
  List.length (tuples labels) = product (map (@List.length string) labels).
Proof.
  induction labels as [|l0 rest IH]; [reflexivity|].
  cbn [tuples map]. rewrite product_cons, <- IH.
  induction l0 as [|x l0 IH0]; [reflexivity|].
  cbn [flat_map List.length]. rewrite length_app, length_map, IH0. lia.
Qed.

Lemma In_tuples (labels : list (list string)) (t : list string) :
  In t (tuples labels) <-> picks (rev t) labels.
Proof.
  revert t. induction labels as [|l0 rest IH]; intros t; cbn [tuples].
  - split.
    + intros [<- | []]. constructor.
    + intros H. inversion H as [E|]. left.
      apply (f_equal (@rev string)) in E. now rewrite rev_involutive in E.
  - rewrite in_flat_map. split.
    + intros (lbl & Hlbl & Hin). apply in_map_iff in Hin as (r & <- & Hr).
      rewrite rev_app_distr. constructor; [exact Hlbl | now apply IH].
    + intros H. inversion H as [|x l u ls Hx Hu Et El]; subst.
      exists x. split; [exact Hx|]. apply in_map_iff. exists (rev u). split.
      * rewrite <- (rev_involutive t), <- Et. reflexivity.
      * apply IH. now rewrite rev_involutive.
Qed.

Lemma product_app (a b : list nat) : product (a ++ b) = (product a * product b)%nat.
Proof.
  induction a as [|x a IH]; cbn [app].
  - change (product []) with 1%nat. lia.
  - rewrite !product_cons, IH. lia.
Qed.

Lemma product_rev (a : list nat) : product (rev a) = product a.
Proof.
  induction a as [|x a IH]; [reflexivity|].
  cbn [rev]. rewrite product_app, IH, !product_cons.
  change (product []) with 1%nat. lia.
Qed.

Lemma picks_rev (t : list string) (lists : list (list string)) :
  picks (rev t) (rev lists) <-> picks t lists.
Proof.
  assert (H : forall t lists, picks t lists -> picks (rev t) (rev lists)).
  { induction 1; cbn [rev]; [constructor|].
    apply Forall2_app; [assumption | now repeat constructor]. }
  split; [|apply H]. intros Hr. apply H in Hr.
  now rewrite !rev_involutive in Hr.
Qed.

(** The tuples over the patterns of spans without prefix: every span
    replaced by one of its labels. *)
Lemma picks_inner (items : list (span * list string)) (t : list string) :
  picks t (map Pattern_Expand (map innerPattern items)) <->
  exists choice,
    picks choice (map snd items) /\ t = fillSpans (map fst items) choice.
Proof.
  revert t. induction items as [|it items IH]; intros t; cbn [map].
  - split.
    + intros H. inversion H. exists []. split; [constructor | reflexivity].
    + intros (choice & Hc & ->). inversion Hc. constructor.
  - rewrite Pattern_Expand_concat. unfold innerPattern at 1.
    cbn [Prefix Suffix Seq]. split.
    + intros H. inversion H as [|x l u ls Hx Hu Et El]; subst.
      apply in_map_iff in Hx as (lab & <- & Hlab).
      apply IH in Hu as (choice & Hc & ->).
      exists (lab :: choice). split; [now constructor | reflexivity].
    + intros (choice & Hc & ->).
      inversion Hc as [|lab l c' ls Hlab Hc' Ec El]; subst.
      cbn [fillSpans]. constructor.
      * apply in_map_iff. exists lab. split; [reflexivity | exact Hlab].
      * apply IH. eauto.
Qed.

(** The extractor on plain text followed by resolved spans. *)
Lemma FindEllipsesPatterns_resolved (fuel : nat) (pre : string)
  (first : span * list string) (rest : list (span * list string)) :
  allBytes isPlain pre = true ->
  Forall (resolvesWith (parseEllipsesRange fuel)) (first :: rest) ->
  FindEllipsesPatterns fuel (pre ++ render (map fst (first :: rest))) =
  Some (rev (mkPattern pre (spanAfter (fst first)) (snd first)
             :: map innerPattern rest), None).
Proof.
  intros Hpre Hall.
  pose proof (Forall_inv Hall) as [Hwf Hparse].
  pose proof (Forall_inv_tail Hall) as Hrest.
  assert (Hw : allBytes isAny pre = true)
    by exact (allBytes_weaken _ _ pre isPlain_isAny Hpre).
  destruct (findPatterns_peeled _ pre (fst first) rest Hw Hwf Hrest) as [k Hk].
  unfold FindEllipsesPatterns. cbn [map]. rewrite Hk, peel_S. cbn [part nth].
  rewrite MatchString_search, search_absent
    by exact (allBytes_weaken _ _ pre isPlain_notBrace Hpre).
  unfold finish. cbn [List.length Nat.ltb Nat.leb part nth].
  rewrite Hparse.
  replace (leftoverBraces _) with false; [reflexivity|].
  symmetry. rewrite leftoverBraces_app.
  apply orb_false_iff. split.
  - rewrite <- map_rev. apply (leftoverBraces_inner (parseEllipsesRange fuel)).
    now apply Forall_rev.
  - apply wellFormed_parts in Hwf as (_ & _ & Ha).
    unfold leftoverBraces. cbn [existsb Prefix Suffix].
    now rewrite (hasBraces_plain _ Hpre), (hasBraces_plain _ Ha).
Qed.

(** ** The guard of the callers *)

Lemma Count_pos_Contains (h : ascii) (t s : string) :
  (0 <? Count s (String h t))%nat = Contains s (String h t).
Proof.
  unfold Count, Contains. destruct s as [|c s].
  - reflexivity.
  - cbn [String.length countLoop].
    destruct (Index (String c s) (String h t)); reflexivity.
Qed.

Lemma HasEllipses_fold (args : list string) (ok : bool) :
  fold_left
    (fun ok arg =>
       ok && ((0 <? Count arg ellipses)%nat
              || ((0 <? Count arg openBraces)%nat
                  && (0 <? Count arg closeBraces)%nat)))
    args ok
  = ok && forallb (fun arg =>
                     Contains arg "..."
                     || (Contains arg "{" && Contains arg "}")) args.
Proof.
  revert ok. induction args as [|arg args IH]; intros ok; cbn [fold_left forallb].
  - now rewrite andb_true_r.
  - rewrite IH. unfold ellipses, openBraces, closeBraces.
    rewrite !Count_pos_Contains. now rewrite andb_assoc.
Qed.

(** A match is a piece of the text searched. *)
Lemma matchAt_piece (s g1 g2 g3 : string) :
  matchAt s = Some (g1, g2, g3) -> exists b, s = g1 ++ g2 ++ b.
Proof.
  revert g1. induction s as [|c s IH]; intros g1.
  - cbn [matchAt matchSpan]. discriminate.
  - assert (Hhere : match matchSpan (String c s) with
                    | Some (sp, rest) => Some ("", sp, fst (star isAny rest))
                    | None => None
                    end = Some (g1, g2, g3) ->
                    exists b, String c s = g1 ++ g2 ++ b).
    { destruct (matchSpan (String c s)) as [[sp rest]|] eqn:E; [|discriminate].
      intros H. injection H as <- <- <-.
      destruct (matchSpan_shape _ _ _ E) as (l & r & _ & _ & _ & Hs).
      exists rest. exact Hs. }
    cbn [matchAt]. destruct (isAny c); [|exact Hhere].
    destruct (matchAt s) as [[[h1 h2] h3]|] eqn:E; [|exact Hhere].
    intros H. injection H as <- <- <-.
    destruct (IH _ eq_refl) as [b ->]. now exists b.
Qed.

Lemma search_piece (s g1 g2 g3 : string) :
  search s = Some (g1, g2, g3) -> exists a b, s = a ++ g2 ++ b.
Proof.
  induction s as [|c s IH]; cbn [search].
  - destruct (matchAt "") as [m|] eqn:E; [|discriminate].
    intros H. injection H as ->.
    destruct (matchAt_piece _ _ _ _ E) as [b Hb]. now exists g1, b.
  - destruct (matchAt (String c s)) as [m|] eqn:E.
    + intros H. injection H as ->.
      destruct (matchAt_piece _ _ _ _ E) as [b Hb]. now exists g1, b.
    + intros H. destruct (IH H) as (a & b & ->). now exists (String c a), b.
Qed.

(** A text the expression matches contains the three dots and both braces. *)
Lemma search_Contains (s : string) :
  search s <> None ->
  Contains s "..." = true /\ Contains s "{" = true /\ Contains s "}" = true.
Proof.
  destruct (search s) as [[[g1 g2] g3]|] eqn:E; [intros _ | contradiction].
  destruct (search_shape _ _ _ _ E) as [(l & r & -> & _) _].
  destruct (search_piece _ _ _ _ E) as (a & b & ->).
  unfold token. repeat split.
  - replace (a ++ ("{" ++ l ++ "..." ++ r ++ "}") ++ b)
      with ((a ++ "{" ++ l) ++ "..." ++ (r ++ "}" ++ b))
      by (now rewrite !sapp_assoc).
    apply Contains_present.
  - rewrite !sapp_assoc. apply Contains_present.
  - replace (a ++ ("{" ++ l ++ "..." ++ r ++ "}") ++ b)
      with ((a ++ "{" ++ l ++ "..." ++ r) ++ "}" ++ b)
      by (now rewrite !sapp_assoc).
    apply Contains_present.
Qed.

(** ** What a successful extraction returns *)

Lemma rangeBounds_ordered (pattern : string) (b : bounds) :
  rangeBounds pattern = inl b -> start b <= end_ b.
Proof.
  unfold rangeBounds.
  repeat match goal with
         | |- context [if ?c then _ else _] => destruct c eqn:?
         | |- context [match ?c with _ => _ end] => destruct c eqn:?
         end; try discriminate.
  all: intros Hb; injection Hb as <-; cbn [start end_];
    match goal with E : (_ <? _) = false |- _ => apply Z.ltb_ge in E end; lia.
Qed.

Lemma rangeLoop_extends (b : bounds) (fuel : nat) (i : Z) (seq r : list string) :
  rangeLoop fuel b i seq = Some r ->
  exists tail, r = (seq ++ tail)%list /\ (i <= end_ b -> tail <> []).
Proof.
  revert i seq. induction fuel as [|fuel IH]; intros i seq; [discriminate|].
  rewrite rangeLoop_S. destruct (i <=? end_ b) eqn:E.
  - intros H. destruct (IH _ _ H) as (tail & -> & _).
    exists (label b i :: tail). split; [now rewrite <- app_assoc | discriminate].
  - intros H. injection H as <-. exists []. split; [now rewrite app_nil_r|].
    apply Z.leb_gt in E. lia.
Qed.

(** The resolver never returns an empty list of labels without an error. *)
Lemma parseEllipsesRange_nonempty (fuel : nat) (pattern : string)
  (seq : list string) :
  parseEllipsesRange fuel pattern = Some (seq, None) -> seq <> [].
Proof.
  unfold parseEllipsesRange. destruct (rangeBounds pattern) as [b|e] eqn:Eb;
    [|discriminate].
  destruct (rangeLoop fuel b (start b) []) as [r|] eqn:El; [|discriminate].
  intros H. injection H as <-.
  destruct (rangeLoop_extends _ _ _ _ _ El) as (tail & -> & Hne).
  apply Hne. exact (rangeBounds_ordered _ _ Eb).
Qed.

Section Built.

Variable arg : string.
Variable parser : string -> option (list string * option error).
Hypothesis parser_nonempty :
  forall tok seq, parser tok = Some (seq, None) -> seq <> [].

Lemma finish_built (parts : list string) (acc ps : list Pattern) :
  acc <> [] \/ parts <> [] ->
  Forall (fun p => Seq p <> [] /\ Prefix p = "") acc ->
  finish arg parser parts acc = Some (ps, None) ->
  leftoverBraces ps = false
  /\ exists front last,
       ps = (front ++ [last])%list
       /\ Forall (fun p => Seq p <> [] /\ Prefix p = "") front
       /\ Seq last <> [].
Proof.
  intros Hne Hacc. unfold finish.
  destruct (Nat.ltb 0 (List.length parts)) eqn:El.
  - destruct (parser (part 1 parts)) as [[seq [err|]]|] eqn:Ep; try discriminate.
    destruct (leftoverBraces _) eqn:Hleft; [discriminate|].
    intros H. injection H as <-. split; [exact Hleft|].
    eexists _, _. split; [reflexivity|]. split; [exact Hacc|].
    exact (parser_nonempty _ _ Ep).
  - destruct (leftoverBraces acc) eqn:Hleft; [discriminate|].
    intros H. injection H as <-. split; [exact Hleft|].
    destruct Hne as [Hne | Hne].
    + destruct (exists_last Hne) as (front & last & ->).
      apply Forall_app in Hacc as [Hfront Hlast].
      exists front, last. split; [reflexivity|]. split; [exact Hfront|].
      now apply Forall_inv in Hlast as [Hs _].
    + destruct parts; [contradiction | discriminate El].
Qed.

Lemma peel_built (fuel : nat) (parts : list string) (acc ps : list Pattern) :
  acc <> [] \/ parts <> [] ->
  Forall (fun p => Seq p <> [] /\ Prefix p = "") acc ->
  peel arg regexpEllipses parser fuel parts acc = Some (ps, None) ->
  leftoverBraces ps = false
  /\ exists front last,
       ps = (front ++ [last])%list
       /\ Forall (fun p => Seq p <> [] /\ Prefix p = "") front
       /\ Seq last <> [].
Proof.
  revert parts acc. induction fuel as [|fuel IH]; intros parts acc Hne Hacc;
    [discriminate|].
  rewrite peel_S. destruct (MatchString regexpEllipses (part 0 parts));
    [|now apply finish_built].
  destruct (parser (part 1 parts)) as [[seq [err|]]|] eqn:Ep; try discriminate.
  cbv zeta.
  assert (Hacc' : Forall (fun p => Seq p <> [] /\ Prefix p = "")
                    (acc ++ [mkPattern "" (part 2 parts) seq])).
  { apply Forall_app. split; [exact Hacc|]. constructor; [|constructor].
    split; [exact (parser_nonempty _ _ Ep) | reflexivity]. }
  assert (Hne' : (acc ++ [mkPattern "" (part 2 parts) seq])%list <> [])
    by (destruct acc; discriminate).
  destruct (Nat.ltb 0 _).
  - apply IH; [now left | exact Hacc'].
  - apply finish_built; [now left | exact Hacc'].
Qed.

End Built.

Lemma leftoverBraces_false (ps : list Pattern) :
  leftoverBraces ps = false ->
  Forall (fun p => hasBraces (Prefix p) = false /\ hasBraces (Suffix p) = false) ps.
Proof.
  unfold leftoverBraces. induction ps as [|p ps IH]; [constructor|].
  cbn [existsb]. intros H. apply orb_false_iff in H as [Hp Hps].
  apply orb_false_iff in Hp. constructor; [exact Hp | exact (IH Hps)].
Qed.

(** ** The tables of actions *)

Lemma supportedActions_valid :
  forallb Policy.Action_IsValid Policy.supportedActions = true.
Proof. vm_compute. reflexivity. Qed.

Lemma supportedObjectActions_object :
  forallb Policy.Action_IsObjectAction Policy.supportedObjectActions = true.
Proof. vm_compute. reflexivity. Qed.

Lemma supportedObjectActions_supported :
  forallb (fun a => existsb (String.eqb a) Policy.supportedActions)
          Policy.supportedObjectActions = true.
Proof. vm_compute. reflexivity. Qed.

Lemma object_action_supported (a : Policy.Action) :
  In a Policy.supportedObjectActions -> In a Policy.supportedActions.
Proof.
  intros H.
  pose proof (proj1 (forallb_forall _ _) supportedObjectActions_supported a H) as E.
  apply existsb_exists in E as (x & Hx & Ex).
  apply String.eqb_eq in Ex. now subst.
Qed.

(** An action without wildcard matches a table entry exactly when it is the
    entry. *)
Lemma existsb_Match_literal (a : Policy.Action) (table : list Policy.Action) :
  Wildcard.Has a = false ->
  existsb (fun sup => Policy.Action_Match a sup) table = true <-> In a table.
Proof.
  intros H. rewrite existsb_exists. unfold Policy.Action_Match. split.
  - intros (sup & Hin & Hm). apply (Match_literal a sup H) in Hm. now subst.
  - intros Hin. exists a. split; [exact Hin|]. now apply (Match_literal a a H).
Qed.

(** ** Further properties of the range resolver and the expansion *)

(** X1: when the resolver returns on a token whose boundaries resolve to
    [s <= e] and whose right text is shorter than 10,000,010 bytes, it
    returns one label per integer of [s..e]; every label, read back with
    [ParseUint] in the base of the range, is its integer, so the labels
    ascend in value and no two are equal. *)
Theorem parseEllipsesRange_read_back (l r : string) (s e : Z) (hl hr : bool)
  (fuel : nat) (seq : list string) (err : option error) :
  boundary l = inl (s, hl) -> boundary r = inl (e, hr) -> s <= e ->
  Z.of_nat (String.length r) < 10000010 ->
  parseEllipsesRange fuel (token l r) = Some (seq, err) ->
  List.length seq = Z.to_nat (e - s + 1)
  /\ map (fun lab => ParseUint lab (if hl || hr then 16 else 10)) seq
     = map inl (interval s e)
  /\ NoDup seq.
Proof.
  intros Bl Br Hse Hwidth H.
  pose proof (parseEllipsesRange_labels _ _ _ _ _ _ _ _ Bl Br Hse H) as E.
  injection E as -> ->.
  pose proof (boundary_range _ _ _ Bl) as Rs.
  pose proof (boundary_range _ _ _ Br) as Re.
  set (b := mkBounds l r s e (hl || hr)).
  assert (Hread : map (fun lab => ParseUint lab (if hl || hr then 16 else 10))
                      (map (label b) (interval s e))
                  = map inl (interval s e)).
  { rewrite map_map. apply map_ext_in. intros i Hi.
    apply In_upto in Hi. apply (label_read_back b); [exact Hwidth | lia]. }
  split; [|split].
  - unfold interval. now rewrite length_map, length_upto.
  - exact Hread.
  - apply (NoDup_map_inv
             (fun lab => ParseUint lab (if hl || hr then 16 else 10))).
    rewrite Hread. unfold interval.
    generalize (NoDup_upto s (Z.to_nat (e - s + 1))).
    induction 1 as [|x xs Hx _ IH]; cbn [map]; constructor; [|exact IH].
    intros Hin. apply in_map_iff in Hin as (y & Ey & Hy).
    injection Ey as ->. contradiction.
Qed.

Lemma parseEllipsesRange_read_back_witness :
  map (fun lab => ParseUint lab 16) ["08"; "09"; "0a"; "0b"]
  = [inl 8; inl 9; inl 10; inl 11].
Proof.
  refine (proj1 (proj2 (parseEllipsesRange_read_back "08" "0b" 8 11 false true
                          5 ["08"; "09"; "0a"; "0b"] None _ _ _ _ _))).
  - reflexivity.
  - reflexivity.
  - discriminate.
  - reflexivity.
  - reflexivity.
Defined.

(** X2: [Pattern.Expand] returns, for every label of the pattern and in
    their order, the prefix, the label and the suffix joined; the four cases
    of its switch agree on that. *)
Theorem Pattern_Expand_labels (p : Pattern) :
  Pattern_Expand p = map (fun s => Prefix p ++ s ++ Suffix p) (Seq p)
  /\ List.length (Pattern_Expand p) = List.length (Seq p).
Proof.
  split.
  - apply Pattern_Expand_concat.
  - unfold Pattern_Expand. apply length_map.
Qed.

(** X3: on a non-empty list of label lists [argExpander] returns as many
    tuples as the product of the lengths of the lists, and a tuple is
    returned exactly when, read from its last element to its first, it takes
    one label of each list in the order of the lists. *)
Theorem argExpander_product (l0 : list string) (rest : list (list string)) :
  exists out,
    argExpander (l0 :: rest) = Some out
    /\ List.length out = product (map (@List.length string) (l0 :: rest))
    /\ forall t, In t out <-> picks (rev t) (l0 :: rest).
Proof.
  exists (tuples (l0 :: rest)). split; [|split].
  - apply argExpander_tuples.
  - apply length_tuples.
  - intros t. apply In_tuples.
Qed.

(** X4: for an input made of plain text and spans whose tokens resolve,
    [Expand] of the patterns [FindEllipsesPatterns] returns gives one tuple
    per choice of a label for every span; the tuple lists the spans from
    left to right, each replaced by its label and followed by its text, the
    first one with the leading text in front. *)
Theorem Expand_of_extraction (fuel : nat) (pre : string)
  (first : span * list string) (rest : list (span * list string)) :
  allBytes isPlain pre = true ->
  Forall (resolvesWith (parseEllipsesRange fuel)) (first :: rest) ->
  exists ps out,
    FindEllipsesPatterns fuel (pre ++ render (map fst (first :: rest)))
    = Some (ps, None)
    /\ ArgPattern_Expand ps = Some out
    /\ List.length out
       = product (map (fun it => List.length (snd it)) (first :: rest))
    /\ forall t,
         In t out <->
         exists choice,
           picks choice (map snd (first :: rest))
           /\ t = withPrefix pre (fillSpans (map fst (first :: rest)) choice).
Proof.
  intros Hpre Hall.
  set (Q := mkPattern pre (spanAfter (fst first)) (snd first)
            :: map innerPattern rest).
  exists (rev Q), (tuples (map Pattern_Expand (rev Q))).
  split; [exact (FindEllipsesPatterns_resolved fuel pre first rest Hpre Hall)|].
  split; [|split].
  - unfold ArgPattern_Expand.
    destruct (map Pattern_Expand (rev Q)) as [|l0 ls] eqn:E.
    + apply (f_equal (@List.length (list string))) in E.
      rewrite length_map, length_rev in E. discriminate E.
    + apply argExpander_tuples.
  - rewrite length_tuples, map_map, map_rev, product_rev.
    subst Q. cbn [map]. rewrite !product_cons. f_equal.
    + unfold Pattern_Expand. now rewrite length_map.
    + rewrite map_map. f_equal. apply map_ext. intros it.
      unfold Pattern_Expand. now rewrite length_map.
  - intros t. rewrite In_tuples, map_rev, picks_rev. subst Q. cbn [map].
    rewrite Pattern_Expand_concat. cbn [Prefix Suffix Seq]. split.
    + intros H. inversion H as [|x l0 u ls Hx Hu Et El]; subst.
      apply in_map_iff in Hx as (lab & <- & Hlab).
      apply picks_inner in Hu as (choice & Hc & ->).
      exists (lab :: choice). split; [now constructor | reflexivity].
    + intros (choice & Hc & ->).
      inversion Hc as [|lab l0 c' ls Hlab Hc' Ec El]; subst.
      cbn [fillSpans withPrefix]. constructor.
      * apply in_map_iff. exists lab. split; [reflexivity | exact Hlab].
      * apply picks_inner. eauto.
Qed.

Lemma Expand_of_extraction_witness :
  exists ps out,
    FindEllipsesPatterns 3 "pool{1...2}-disk{3...4}" = Some (ps, None)
    /\ ArgPattern_Expand ps = Some out
    /\ List.length out = 4%nat.
Proof.
  destruct (Expand_of_extraction 3 "pool"
              (mkSpan "1" "2" "-disk", ["1"; "2"])
              [(mkSpan "3" "4" "", ["3"; "4"])]
              eq_refl
              ltac:(repeat constructor))
    as (ps & out & H1 & H2 & H3 & _).
  exists ps, out. repeat split; assumption.
Defined.

(** X5: [HasEllipses] is true exactly when every argument contains the three
    dots or contains both an opening and a closing brace; with no argument
    it is true. *)
Theorem HasEllipses_every_argument (args : list string) :
  HasEllipses args = true <->
  Forall (fun arg =>
            Contains arg "..." = true
            \/ (Contains arg "{" = true /\ Contains arg "}" = true)) args.
Proof.
  unfold HasEllipses. rewrite HasEllipses_fold. cbn [andb].
  rewrite forallb_forall, Forall_forall.
  split; intros H arg Hin; specialize (H arg Hin).
  - apply orb_true_iff in H as [H | H]; [now left | right].
    now apply andb_true_iff in H.
  - apply orb_true_iff. destruct H as [H | [H1 H2]]; [now left | right].
    now rewrite H1, H2.
Qed.

(** X6: an input [HasEllipses] rejects has no span: [FindEllipsesPatterns]
    fails on it with the format error for the input and no pattern. *)
Theorem HasEllipses_guards_extraction (fuel : nat) (arg : string) :
  HasEllipses [arg] = false ->
  FindEllipsesPatterns fuel arg
  = Some ([], Some (ErrInvalidEllipsesFormatFn arg)).
Proof.
  intros H. unfold FindEllipsesPatterns, findPatterns.
  rewrite FindStringSubmatch_search.
  destruct (search arg) as [m|] eqn:E; [|reflexivity].
  exfalso. destruct (search_Contains arg) as (Hd & _); [now rewrite E|].
  unfold HasEllipses in H. rewrite HasEllipses_fold in H.
  cbn [andb forallb] in H. rewrite Hd in H. discriminate H.
Qed.

Lemma HasEllipses_guards_extraction_witness :
  FindEllipsesPatterns 0 "plain"
  = Some ([], Some (ErrInvalidEllipsesFormatFn "plain")).
Proof. exact (HasEllipses_guards_extraction 0 "plain" eq_refl). Defined.

(** X7: whatever the input, the patterns [FindEllipsesPatterns] returns
    without an error are at least one, each with at least one label and
    with no brace in its prefix or suffix, and only the last one can have a
    prefix. *)
Theorem FindEllipsesPatterns_built (fuel : nat) (arg : string) (ps : ArgPattern) :
  FindEllipsesPatterns fuel arg = Some (ps, None) ->
  ps <> []
  /\ Forall (fun p => Seq p <> []
                      /\ hasBraces (Prefix p) = false
                      /\ hasBraces (Suffix p) = false) ps
  /\ Forall (fun p => Prefix p = "") (removelast ps).
Proof.
  unfold FindEllipsesPatterns.
  destruct (findPatterns arg regexpEllipses (parseEllipsesRange fuel))
    as [[v [e|]]|] eqn:E; try discriminate.
  { destruct (isErrFormat e); discriminate. }
  intros H. injection H as <-.
  unfold findPatterns in E. rewrite FindStringSubmatch_search in E.
  destruct (search arg) as [[[g1 g2] g3]|]; [|discriminate E].
  cbn [List.length Nat.eqb tl] in E.
  assert (Hparts : @nil Pattern <> [] \/ [g1; g2; g3] <> [])
    by (right; discriminate).
  destruct (peel_built arg (parseEllipsesRange fuel)
              (parseEllipsesRange_nonempty fuel) (S (String.length arg))
              [g1; g2; g3] [] v Hparts (Forall_nil _) E)
    as (Hleft & front & last & -> & Hfront & Hlast).
  apply leftoverBraces_false in Hleft.
  split; [destruct front; discriminate|]. split.
  - apply Forall_app in Hleft as [Hlf Hll]. apply Forall_app. split.
    + apply Forall_forall. intros p Hp.
      pose proof (proj1 (Forall_forall _ _) Hfront p Hp) as [Hs _].
      pose proof (proj1 (Forall_forall _ _) Hlf p Hp) as [Hb1 Hb2]. auto.
    + apply Forall_inv in Hll as [Hb1 Hb2]. constructor; [auto | constructor].
  - rewrite removelast_last. revert Hfront. apply Forall_impl. now intros p [_ Hp].
Qed.

Lemma FindEllipsesPatterns_built_witness :
  [mkPattern "" "" ["3"; "4"]; mkPattern "pool" "-disk" ["1"; "2"]] <> [].
Proof.
  exact (proj1 (FindEllipsesPatterns_built 3 "pool{1...2}-disk{3...4}"
                  [mkPattern "" "" ["3"; "4"]; mkPattern "pool" "-disk" ["1"; "2"]]
                  eq_refl)).
Defined.

(** X8: the loop of [findPatterns] ends on every input: each round goes on
    with a text shorter than the one before, so [findPatterns] returns
    whenever the parser it is given returns. *)
Theorem findPatterns_returns (arg : string)
  (parser : string -> option (list string * option error)) :
  (forall tok, exists r, parser tok = Some r) ->
  exists r, findPatterns arg regexpEllipses parser = Some r.
Proof.
  intros Hp.
  assert (Htot : forall tok, parser tok <> None).
  { intros tok. destruct (Hp tok) as [r ->]. discriminate. }
  pose proof (findPatterns_total arg parser Htot) as H.
  destruct (findPatterns arg regexpEllipses parser) as [r|];
    [now exists r | contradiction].
Qed.

Lemma findPatterns_returns_witness :
  exists r,
    findPatterns "a{x...y}b{1...2}" regexpEllipses (fun _ => Some (["l"], None))
    = Some r.
Proof.
  exact (findPatterns_returns "a{x...y}b{1...2}" (fun _ => Some (["l"], None))
           (fun _ => ex_intro _ _ eq_refl)).
Defined.

(** ** Properties of the wildcard matcher and of the actions *)

(** X9: [Match] accepts a name exactly when the name is the pattern with
    every [?] replaced by one byte and every [*] by a run of bytes, possibly
    empty; bytes, not characters, are what [?] counts. *)
Theorem Match_glob (pattern name : string) :
  Wildcard.Match pattern name = true <-> glob false pattern name.
Proof.
  rewrite Match_deep.
  split; [apply deepMatchRune_sound | apply deepMatchRune_complete].
Qed.

(** X10: [MatchSimple] accepts the names [Match] accepts and, besides, a
    name that is used up when the pattern reaches a [?], whatever follows
    that [?] in the pattern. *)
Theorem MatchSimple_glob (pattern name : string) :
  Wildcard.MatchSimple pattern name = true <-> glob true pattern name.
Proof.
  rewrite MatchSimple_deep.
  split; [apply deepMatchRune_sound | apply deepMatchRune_complete].
Qed.

(** X11: every name [Match] accepts, [MatchSimple] accepts; and for a text
    [p] without wildcard, [MatchSimple] accepts the name [p] for the pattern
    [p?q] with any [q] at all, where [Match] rejects it. *)
Theorem MatchSimple_short_name :
  (forall pattern name,
      Wildcard.Match pattern name = true ->
      Wildcard.MatchSimple pattern name = true)
  /\ (forall p q,
        Wildcard.Has p = false ->
        Wildcard.MatchSimple (p ++ "?" ++ q) p = true
        /\ Wildcard.Match (p ++ "?" ++ q) p = false).
Proof.
  split.
  - intros pattern name H. rewrite MatchSimple_deep.
    apply deepMatchRune_complete, glob_weaken, deepMatchRune_sound.
    now rewrite <- Match_deep.
  - intros p q H. destruct (Has_false _ H) as [Hs Hq]. clear H. split.
    + rewrite MatchSimple_deep. apply deepMatchRune_complete.
      induction p as [|c p IH]; [now apply glob_short|].
      cbn [allBytes] in Hs, Hq.
      apply andb_true_iff in Hs as [Hcs Hs]. apply andb_true_iff in Hq as [Hcq Hq].
      unfold notByte in Hcs, Hcq.
      destruct (Ascii.eqb_spec c "*"); [discriminate|].
      destruct (Ascii.eqb_spec c "?"); [discriminate|].
      apply glob_byte; auto.
    + destruct (Wildcard.Match (p ++ "?" ++ q) p) eqn:E; [exfalso | reflexivity].
      rewrite Match_deep in E. apply deepMatchRune_sound in E.
      induction p as [|c p IH].
      * inversion E; subst; try discriminate; contradiction.
      * cbn [allBytes] in Hs, Hq.
        apply andb_true_iff in Hs as [Hcs Hs].
        apply andb_true_iff in Hq as [Hcq Hq].
        unfold notByte in Hcs, Hcq.
        destruct (Ascii.eqb_spec c "*"); [discriminate|].
        destruct (Ascii.eqb_spec c "?"); [discriminate|].
        inversion E; subst; try contradiction. now apply IH.
Qed.

(** X12: a pattern [Has] finds no wildcard in matches one name, itself,
    under [Match] and under [MatchSimple]. *)
Theorem literal_pattern_matches_itself (pattern name : string) :
  Wildcard.Has pattern = false ->
  (Wildcard.Match pattern name = true <-> name = pattern)
  /\ (Wildcard.MatchSimple pattern name = true <-> name = pattern).
Proof.
  intros H. destruct (Has_false _ H) as [Hs Hq]. split.
  - rewrite Match_deep, <- (glob_literal false pattern name Hs Hq).
    split; [apply deepMatchRune_sound | apply deepMatchRune_complete].
  - rewrite MatchSimple_deep, <- (glob_literal true pattern name Hs Hq).
    split; [apply deepMatchRune_sound | apply deepMatchRune_complete].
Qed.

Lemma literal_pattern_matches_itself_witness :
  Wildcard.Match "s3:GetObject" "s3:GetObjectAcl" = true
  <-> "s3:GetObjectAcl" = "s3:GetObject".
Proof.
  exact (proj1 (literal_pattern_matches_itself "s3:GetObject" "s3:GetObjectAcl"
                  eq_refl)).
Defined.

(** X13: [MatchAsPatternPrefix] accepts a text exactly when the text is the
    beginning of some name the pattern matches under [Match]. *)
Theorem MatchAsPatternPrefix_extends (pattern text : string) :
  Wildcard.MatchAsPatternPrefix pattern text = true <->
  exists name, isPrefixOf text name /\ Wildcard.Match pattern name = true.
Proof.
  rewrite MatchAsPatternPrefix_walk. split.
  - intros H. destruct (prefixWalk_extends _ _ H) as (name & Hpre & Hg).
    exists name. split; [exact Hpre|].
    rewrite Match_deep. now apply deepMatchRune_complete.
  - intros (name & Hpre & Hm). rewrite Match_deep in Hm.
    apply deepMatchRune_sound in Hm. exact (prefixWalk_prefix _ _ Hm _ Hpre).
Qed.

(** X14: every action of the table of supported actions is valid, every
    action of the table of object actions is an object action, and an
    action that is an object action is valid. *)
Theorem object_actions_are_valid :
  (forall a, In a Policy.supportedActions -> Policy.Action_IsValid a = true)
  /\ (forall a, In a Policy.supportedObjectActions ->
                Policy.Action_IsObjectAction a = true)
  /\ (forall a, Policy.Action_IsObjectAction a = true ->
                Policy.Action_IsValid a = true).
Proof.
  split; [|split].
  - intros a. apply (proj1 (forallb_forall _ _) supportedActions_valid).
  - intros a. apply (proj1 (forallb_forall _ _) supportedObjectActions_object).
  - intros a H. unfold Policy.Action_IsObjectAction in H.
    apply existsb_exists in H as (sup & Hin & Hm).
    unfold Policy.Action_IsValid. apply existsb_exists.
    exists sup. split; [now apply object_action_supported | exact Hm].
Qed.

(** X15: an action without wildcard is valid exactly when it is one of the
    supported actions, and an object action exactly when it is one of the
    supported object actions. *)
Theorem literal_action_in_table (a : Policy.Action) :
  Wildcard.Has a = false ->
  (Policy.Action_IsValid a = true <-> In a Policy.supportedActions)
  /\ (Policy.Action_IsObjectAction a = true
      <-> In a Policy.supportedObjectActions).
Proof.
  intros H. split.
  - unfold Policy.Action_IsValid. now apply existsb_Match_literal.
  - unfold Policy.Action_IsObjectAction. now apply existsb_Match_literal.
Qed.

Lemma literal_action_in_table_witness :
  Policy.Action_IsValid "s3:ListBucket" = true
  <-> In "s3:ListBucket" Policy.supportedActions.
Proof.
  exact (proj1 (literal_action_in_table "s3:ListBucket" eq_refl)).
Defined.
